(** * The PyTorch shim of thinc, embedded and verified

    Source: [thinc/shims/pytorch.py], class [PyTorchShim].

    The shim wraps a foreign (PyTorch) model.  Python objects that the code
    mutates in place (tensor and array buffers) live in a heap of buffers
    addressed by locations, so that aliasing, [clone] and [copy] mean what
    they mean in the source.  Python exceptions are an [outcome]; every
    effectful operation returns the state it leaves behind together with
    its outcome, so that what was mutated before a raise stays visible. *)

From Stdlib Require Import ZArith Floats Ascii String.
From stdpp Require Import base gmap strings list pretty.

Set Warnings "-inexact-float,-register-all,-clear-no-such-hyp".
Set Default Proof Using "Type".

Local Open Scope string_scope.

(** ** Python runtime: exceptions and outcomes *)

Inductive exn :=
| NameError (name : string)
| AttributeError (attr : string)
| KeyError (key : string)
| TypeError
| ValueError
| RuntimeError
| Failure (tag : string).

Inductive outcome (A : Type) :=
| Ok (a : A)
| Raise (e : exn).
Arguments Ok {A} a.
Arguments Raise {A} e.

Definition is_ok {A} (o : outcome A) : bool :=
  match o with Ok _ => true | Raise _ => false end.

Global Instance outcome_ret : MRet outcome := λ A a, Ok a.
Global Instance outcome_bind : MBind outcome := λ A B f o,
  match o with Ok a => f a | Raise e => Raise e end.

(** ** Python strings: [str.startswith] and [str.replace] *)

Definition startswith (s pre : string) : bool := String.prefix pre s.

(** [replace_go old new s skip] scans [s] from the left; [skip] counts the
    characters of an occurrence of [old] that are still to be dropped. *)
Fixpoint replace_go (old new s : string) (skip : nat) : string :=
  match s with
  | EmptyString => EmptyString
  | String c s' =>
      match skip with
      | S k => replace_go old new s' k
      | O =>
          if String.prefix old s
          then new ++ replace_go old new s' (String.length old - 1)
          else String c (replace_go old new s' 0)
      end
  end.

Fixpoint interleave (new s : string) : string :=
  match s with
  | EmptyString => EmptyString
  | String c s' => String c (new ++ interleave new s')
  end.

(** [s.replace(old, new)]: every non-overlapping occurrence, left to right.
    With an empty [old], Python inserts [new] around every character. *)
Definition str_replace (old new s : string) : string :=
  match old with
  | EmptyString => new ++ interleave new s
  | _ => replace_go old new s 0
  end.

(** [old in s] *)
Fixpoint contains (old s : string) : bool :=
  String.prefix old s ||
  match s with
  | EmptyString => false
  | String _ s' => contains old s'
  end.

(** ** Keys of the orchestrator's parameter stores

    Shims write string keys; native layers write [(model id, name)] tuples.
    Of these only the strings have a [startswith] attribute.  (Keys that
    have the attribute without being strings are added by [anykey], further
    down.) *)

Inductive pykey :=
| KStr (s : string)
| KInt (n : Z)
| KTuple (model_id : Z) (name : string).

Global Instance pykey_eq_dec : EqDecision pykey.
Proof. solve_decision. Defined.

Definition pykey_enc (k : pykey) : string + (Z + Z * string) :=
  match k with
  | KStr s => inl s
  | KInt n => inr (inl n)
  | KTuple i n => inr (inr (i, n))
  end.

Definition pykey_dec (x : string + (Z + Z * string)) : pykey :=
  match x with
  | inl s => KStr s
  | inr (inl n) => KInt n
  | inr (inr (i, n)) => KTuple i n
  end.

Global Instance pykey_countable : Countable pykey.
Proof. by apply (inj_countable' pykey_enc pykey_dec); intros []. Defined.

(** [hasattr(k, "startswith")] *)
Definition has_startswith (k : pykey) : bool :=
  match k with KStr _ => true | _ => false end.

(** ** The heap of tensor and array buffers *)

Abbreviation loc := positive.
Abbreviation data := (list Z).
Abbreviation heap := (gmap positive (list Z)).

Definition buf (h : heap) (l : loc) : data := default [] (h !! l).

Definition alloc (d : data) (h : heap) : heap * loc :=
  let l := fresh (dom h) in (<[l := d]> h, l).

(** [v.clone()] (torch) and [a.copy()] (numpy): a new buffer, same content. *)
Definition clone (v : loc) (h : heap) : heap * loc := alloc (buf h v) h.

(** Modelled from the spec: [xp2torch] and [torch2xp] of [thinc.util] are not
    among the sources.  The spec has them convert between the native array
    type and the foreign tensor type, values kept; here the result is a view
    of the same buffer (no copy is made). *)
Definition xp2torch (a : loc) : loc := a.
Definition torch2xp (t : loc) : loc := t.

(** ** The foreign model *)

Inductive torch_device := Cpu | Cuda (index : nat).

Record torch_model := {
  named_parameters : gmap string loc;   (* [state_dict()]: name -> live tensor *)
  training : bool;
  device : torch_device
}.

(** [{k: v.clone() for k, v in items}] *)
Fixpoint clone_items (items : list (string * loc)) (acc : gmap string loc)
    (h : heap) : heap * gmap string loc :=
  match items with
  | [] => (h, acc)
  | (k, v) :: rest =>
      let '(h1, v') := clone v h in
      clone_items rest (<[k := v']> acc) h1
  end.

(** [torch.nn.Module.load_state_dict] (strict): every own tensor named in
    [sd] is overwritten in place ([copy_]) ...

    A buffer is the flat content of a tensor; the model carries neither
    shapes nor dtypes.  It is the load of tensors that have the shape and the
    dtype of the tensors they are copied into, as clones and saved copies of
    the model's own tensors have: there [copy_] moves the values as they
    are.  (For a tensor of another shape the framework raises a
    [RuntimeError], and for another dtype it casts the values.) *)
Fixpoint copy_params (own : list (string * loc)) (sd : gmap string loc)
    (h : heap) : heap :=
  match own with
  | [] => h
  | (name, p) :: rest =>
      match sd !! name with
      | Some src => copy_params rest sd (<[p := buf h src]> h)
      | None => copy_params rest sd h
      end
  end.

(** ... and a [RuntimeError] is raised afterwards when a key is missing or
    unexpected. *)
Definition load_state_dict (m : torch_model) (sd : gmap string loc)
    (h : heap) : heap * outcome unit :=
  let h' := copy_params (map_to_list (named_parameters m)) sd h in
  if decide (dom sd = dom (named_parameters m)) then (h', Ok tt) else (h', Raise RuntimeError).

(** ** Generator-based context managers ([contextlib.contextmanager])

    A generator with one [yield] on each path: the code before the yield
    leaves a frame of locals [F]; the code after it runs when the block
    returns; [on_throw] is what the generator does with an exception thrown
    in at the yield. *)

Record ctxmgr (S F : Type) := {
  before_yield : S → S * outcome F;
  after_yield : F → S → S * outcome unit;
  on_throw : F → exn → S → S * outcome unit
}.
Arguments before_yield {S F} _ _.
Arguments after_yield {S F} _ _ _.
Arguments on_throw {S F} _ _ _ _.

(** [with cm: block] *)
Definition with_block {S F} (cm : ctxmgr S F) (block : S → S * outcome unit)
    (s : S) : S * outcome unit :=
  match before_yield cm s with
  | (s1, Raise e) => (s1, Raise e)
  | (s1, Ok fr) =>
      match block s1 with
      | (s2, Ok _) => after_yield cm fr s2
      | (s2, Raise e) => on_throw cm fr e s2
      end
  end.

(** ** Serializable values (what the envelope codec carries) *)

Inductive msgval :=
| MNil
| MBool (b : bool)
| MInt (z : Z)
| MStr (s : string)
| MBin (b : list Byte.byte)
| MArr (l : list msgval)
| MMap (m : gmap string msgval).

(** ** Foreign optimizers and the generic optimizer *)

Inductive argval :=
| AFloat (x : float)
| APair (x y : float).

Inductive optim_cls := AdamW | Adam | SGD.

Record torch_optimizer := {
  opt_id : nat;                               (* object identity *)
  opt_cls : optim_cls;
  opt_params : list loc;                      (* the parameters it is bound to *)
  param_groups : list (gmap string argval);
  opt_state : gmap loc data                   (* momentum buffers and the like *)
}.

(** Modelled from the spec: the generic optimizer class is not among the
    sources; its fields are those of the spec's generic optimizer interface.
    Line 111 increments [nr_update[key]] also for a key that is not there
    yet, so a missing counter reads 0 (a [defaultdict(int)]). *)
Record Optimizer := {
  learn_rate : float;
  L2 : float;
  b1 : float;
  b2 : float;
  eps : float;
  L2_is_weight_decay : bool;
  grad_clip : option float;                   (* [getattr(optimizer, "grad_clip", None)] *)
  averages : option (gmap pykey loc);         (* [getattr(sgd, "averages", None)] *)
  nr_update : gmap pykey Z                    (* a [defaultdict(int)] *)
}.

(** ** The shim *)

(** Modelled from the spec: the base class [Shim] is not among the sources;
    the fields are those of the spec's data model (identity, config, foreign
    model, lazily constructed foreign optimizer). *)
Record shim := {
  shim_id : nat;                              (* [self.id] *)
  cfg : msgval;
  _model : torch_model;
  _optimizer : option torch_optimizer
}.

(** [f"pytorch_{self.id}_"] *)
Definition key_prefix (self : shim) : string :=
  "pytorch_" ++ pretty (shim_id self) ++ "_".

(** *** [use_params] (lines 90-103) *)

(** The loop of lines 94-96 over [params.items()], for a mapping whose keys
    are of the kinds of [pykey]. *)
Fixpoint collect_state_dict (key_prefix : string) (items : list (pykey * loc))
    (state_dict : gmap string loc) : gmap string loc :=
  match items with
  | [] => state_dict
  | (k, v) :: rest =>
      match k with
      | KStr ks =>
          if has_startswith k && startswith ks key_prefix
          then collect_state_dict key_prefix rest
                 (<[str_replace key_prefix "" ks := xp2torch v]> state_dict)
          else collect_state_dict key_prefix rest state_dict
      | _ => collect_state_dict key_prefix rest state_dict
      end
  end.

(** Whether the mapping holds a key with the prefix. *)
Definition has_matching_key (key_prefix : string) (items : list (pykey * loc)) : bool :=
  existsb (λ kv, match kv.1 with
                 | KStr ks => startswith ks key_prefix
                 | _ => false
                 end) items.

(** The generator.  Its frame at the yield is the backup, when one was
    taken.  No [try] encloses either yield, so an exception thrown in at the
    yield leaves the generator at once. *)
Definition use_params (self : shim) (params : list (pykey * loc))
  : ctxmgr heap (option (gmap string loc)) :=
  let state_dict := collect_state_dict (key_prefix self) params ∅ in
  {| before_yield h :=
       if decide (state_dict = ∅) then (h, Ok None)
       else
         let '(h1, backup) :=
           clone_items (map_to_list (named_parameters (_model self))) ∅ h in
         match load_state_dict (_model self) state_dict h1 with
         | (h2, Ok _) => (h2, Ok (Some backup))
         | (h2, Raise e) => (h2, Raise e)
         end;
     after_yield fr h :=
       match fr with
       | Some backup => load_state_dict (_model self) backup h
       | None => (h, Ok tt)
       end;
     on_throw _ e h := (h, Raise e) |}.

(** *** [use_params] on a mapping with keys of any kind

    Line 95 probes the key for a [startswith] attribute; it does not ask for
    a [str].  A [bytes] or [bytearray] key has the attribute as well, and its
    [startswith] refuses the [str] prefix with a [TypeError].  [pykey] above
    holds the keys on which the loop cannot raise; [anykey] adds the
    others. *)

Inductive anykey :=
| Key (k : pykey)
| KBytes (b : list Byte.byte).

(** [hasattr(k, "startswith")] *)
Definition hasattr_startswith (k : anykey) : bool :=
  match k with
  | Key k => has_startswith k
  | KBytes _ => true
  end.

(** [k.startswith(key_prefix)], for a key that has the attribute. *)
Definition call_startswith (k : anykey) (key_prefix : string) : outcome bool :=
  match k with
  | Key (KStr ks) => Ok (startswith ks key_prefix)
  | Key _ => Raise (AttributeError "startswith")
  | KBytes _ => Raise TypeError
  end.

(** [k.replace(key_prefix, "")], for a key that passed the test. *)
Definition call_replace (k : anykey) (key_prefix : string) : outcome string :=
  match k with
  | Key (KStr ks) => Ok (str_replace key_prefix "" ks)
  | Key _ => Raise (AttributeError "replace")
  | KBytes _ => Raise TypeError
  end.

(** The loop of lines 94-96; [and] evaluates its right operand only when
    the left one is true. *)
Fixpoint collect_any (key_prefix : string) (items : list (anykey * loc))
    (state_dict : gmap string loc) : outcome (gmap string loc) :=
  match items with
  | [] => Ok state_dict
  | (k, v) :: rest =>
      if hasattr_startswith k then
        match call_startswith k key_prefix with
        | Raise e => Raise e
        | Ok true =>
            match call_replace k key_prefix with
            | Raise e => Raise e
            | Ok name =>
                collect_any key_prefix rest (<[name := xp2torch v]> state_dict)
            end
        | Ok false => collect_any key_prefix rest state_dict
        end
      else collect_any key_prefix rest state_dict
  end.

(** The generator on such a mapping: an exception of the loop leaves it
    before anything is cloned or loaded. *)
Definition use_params_any (self : shim) (params : list (anykey * loc))
  : ctxmgr heap (option (gmap string loc)) :=
  {| before_yield h :=
       match collect_any (key_prefix self) params ∅ with
       | Raise e => (h, Raise e)
       | Ok state_dict =>
           if decide (state_dict = ∅) then (h, Ok None)
           else
             let '(h1, backup) :=
               clone_items (map_to_list (named_parameters (_model self))) ∅ h in
             match load_state_dict (_model self) state_dict h1 with
             | (h2, Ok _) => (h2, Ok (Some backup))
             | (h2, Raise e) => (h2, Raise e)
             end
       end;
     after_yield fr h :=
       match fr with
       | Some backup => load_state_dict (_model self) backup h
       | None => (h, Ok tt)
       end;
     on_throw _ e h := (h, Raise e) |}.

(** *** [_update_pytorch_averages] (lines 105-118) *)

(** [d[key]] on a [defaultdict(int)] *)
Definition nr_get (nr : gmap pykey Z) (key : pykey) : Z := default 0%Z (nr !! key).

Definition set_stores (sgd : Optimizer) (av : gmap pykey loc) (nr : gmap pykey Z)
  : Optimizer :=
  {| learn_rate := learn_rate sgd; L2 := L2 sgd; b1 := b1 sgd; b2 := b2 sgd;
     eps := eps sgd; L2_is_weight_decay := L2_is_weight_decay sgd;
     grad_clip := grad_clip sgd; averages := Some av; nr_update := nr |}.

Section averaging.
(** [ops.update_averages(ema, weights, t)]: the array backend's
    moving-average rule; it overwrites the buffer of [ema]. *)
Variable ops_update_averages : data → data → Z → data.

(** One turn of the loop of lines 109-118. *)
Definition averages_step (prefix : string) (init_steps : Z)
    (st : heap * gmap pykey loc * gmap pykey Z) (item : string * loc)
  : heap * gmap pykey loc * gmap pykey Z :=
  let '(h, av, nr) := st in
  let '(name, param) := item in
  let key := KStr (prefix ++ name) in
  let nr := <[key := (nr_get nr key + 1)%Z]> nr in
  let xp_param := torch2xp param in
  match av !! key with
  | Some ema =>
      (<[ema := ops_update_averages (buf h ema) (buf h xp_param) (nr_get nr key)]> h,
       av, nr)
  | None =>
      let '(h1, c) := clone xp_param h in
      (h1, <[key := c]> av, <[key := init_steps]> nr)
  end.

Definition averages_loop (prefix : string) (init_steps : Z)
    (items : list (string * loc)) (st : heap * gmap pykey loc * gmap pykey Z)
  : heap * gmap pykey loc * gmap pykey Z :=
  fold_left (averages_step prefix init_steps) items st.

(** [init_steps] is a keyword argument with default 1. *)
Definition _update_pytorch_averages (self : shim) (sgd : Optimizer)
    (init_steps : option Z) (h : heap) : heap * Optimizer :=
  let init_steps := default 1%Z init_steps in
  match averages sgd with
  | None => (h, sgd)
  | Some av =>
      let '(h', av', nr') :=
        averages_loop (key_prefix self) init_steps
          (map_to_list (named_parameters (_model self))) (h, av, nr_update sgd) in
      (h', set_stores sgd av' nr')
  end.
End averaging.

(** *** [_get_pytorch_optimizer] (lines 66-88) *)

(** The names that the module's [import] statements and its class
    statement bind at module level. *)
Definition module_globals : list string :=
  ["Any"; "contextlib"; "BytesIO"; "srsly"; "torch"; "torch2xp"; "xp2torch";
   "convert_recursive"; "get_current_ops"; "get_array_ops"; "ArgsKwargs";
   "Shim"; "PyTorchShim"].

(** The classes of [torch.optim] that the code names. *)
Definition torch_optim (attr : string) : outcome optim_cls :=
  if decide (attr = "AdamW") then Ok AdamW
  else if decide (attr = "Adam") then Ok Adam
  else if decide (attr = "SGD") then Ok SGD
  else Raise (AttributeError attr).

(** Evaluation of the expression [root.optim.attr] in the module's scope. *)
Definition eval_optim_name (root attr : string) : outcome optim_cls :=
  if bool_decide (root ∈ module_globals) then
    if decide (root = "torch") then torch_optim attr
    else Raise (AttributeError "optim")
  else Raise (NameError root).

(** [x != 0] and [x == 0] on Python floats *)
Definition nonzero (x : float) : bool := negb (PrimFloat.eqb x 0%float).
Definition iszero (x : float) : bool := PrimFloat.eqb x 0%float.

(** Lines 67-82: the arguments and the class. *)
Definition select_optimizer (sgd : Optimizer)
  : outcome (optim_cls * gmap string argval) :=
  let args : gmap string argval :=
    <["weight_decay" := AFloat (L2 sgd)]> (<["lr" := AFloat (learn_rate sgd)]> ∅) in
  if nonzero (b1 sgd) && nonzero (b2 sgd) then
    let args := <["betas" := APair (b1 sgd) (b2 sgd)]> args in
    let args := <["eps" := AFloat (eps sgd)]> args in
    if L2_is_weight_decay sgd then
      cls ← eval_optim_name "torch" "AdamW"; Ok (cls, args)
    else
      cls ← eval_optim_name "torch" "Adam"; Ok (cls, args)
  else
    cls ← eval_optim_name "thinc" "SGD";
    if iszero (b2 sgd) then Ok (cls, <["momentum" := AFloat (b1 sgd)]> args)
    else Ok (cls, args).

Definition set_optimizer (self : shim) (o : option torch_optimizer) : shim :=
  {| shim_id := shim_id self; cfg := cfg self; _model := _model self; _optimizer := o |}.

(** The live tensors of [state_dict()]: the parameters of the model and its
    registered buffers. *)
Definition state_tensors (m : torch_model) : list loc :=
  (map_to_list (named_parameters m)).*2.

(** The object that [cls(params, **args)] makes when the constructor accepts
    its arguments: a new optimizer with one parameter group holding the
    arguments given (the framework's defaults for the others are not
    modelled); [n] is the number of optimizers constructed before. *)
Definition construct (cls : optim_cls) (ps : list loc) (args : gmap string argval)
    (n : nat) : torch_optimizer :=
  {| opt_id := n; opt_cls := cls; opt_params := ps; param_groups := [args];
     opt_state := ∅ |}.

(** [for param_group in o.param_groups: param_group.update(args)] *)
Definition update_groups (o : torch_optimizer) (args : gmap string argval)
  : torch_optimizer :=
  {| opt_id := opt_id o; opt_cls := opt_cls o; opt_params := opt_params o;
     param_groups := (λ g, args ∪ g) <$> param_groups o; opt_state := opt_state o |}.

Section adapter.
(** [m.parameters()]: the trainable tensors of the foreign model.  They are
    among the tensors of [state_dict()], which holds the registered buffers
    as well. *)
Variable model_parameters : torch_model → list loc.
(** The checks that the constructor of a foreign optimizer makes on its
    arguments: it raises (a [ValueError]: a rate or a decay below zero, a
    beta outside its range, no parameter at all) for the arguments it
    rejects, and then no object is made. *)
Variable optim_init : optim_cls → list loc → gmap string argval → outcome unit.

(** The shim and the count of foreign optimizers constructed so far are the
    state. *)
Definition _get_pytorch_optimizer (self : shim) (sgd : Optimizer) (constructed : nat)
  : shim * nat * outcome torch_optimizer :=
  match select_optimizer sgd with
  | Raise e => (self, constructed, Raise e)
  | Ok (cls, args) =>
      match _optimizer self with
      | None =>
          match optim_init cls (model_parameters (_model self)) args with
          | Raise e => (self, constructed, Raise e)
          | Ok _ =>
              let o := construct cls (model_parameters (_model self)) args constructed in
              (set_optimizer self (Some o), S constructed, Ok o)
          end
      | Some o =>
          let o' := update_groups o args in
          (set_optimizer self (Some o'), constructed, Ok o')
      end
  end.
End adapter.

(** *** [finish_update] (lines 56-64) *)

(** What the training calls act on: the buffers, the [.grad] attribute of
    every tensor (absent: [None]) and the number of foreign optimizers
    constructed so far. *)
Record world := {
  bufs : heap;
  grad : gmap loc loc;
  constructed : nat
}.

Definition set_bufs (w : world) (h : heap) : world :=
  {| bufs := h; grad := grad w; constructed := constructed w |}.
Definition set_grad (w : world) (g : gmap loc loc) : world :=
  {| bufs := bufs w; grad := g; constructed := constructed w |}.
Definition set_constructed (w : world) (n : nat) : world :=
  {| bufs := bufs w; grad := grad w; constructed := n |}.

Definition set_opt_state (o : torch_optimizer) (st : gmap loc data) : torch_optimizer :=
  {| opt_id := opt_id o; opt_cls := opt_cls o; opt_params := opt_params o;
     param_groups := param_groups o; opt_state := st |}.

(** Truth value of [getattr(optimizer, "grad_clip", None)] *)
Definition truthy_clip (c : option float) : bool :=
  match c with Some x => nonzero x | None => false end.

Section training.
(** The foreign framework, as far as the shim consumes it.  Each
    operation sees only what its arguments reach. *)
Variable model_parameters : torch_model → list loc.
Variable optim_init : optim_cls → list loc → gmap string argval → outcome unit.
Variable ops_update_averages : data → data → Z → data.
(** [torch.nn.utils.clip_grad_norm_(parameters, max_norm)]: rescales the
    gradients in place. *)
Variable clip_grad_norm_ : list loc → float → gmap loc loc → heap → heap * outcome unit.
(** [optimizer.step()]: updates the buffers and its own state. *)
Variable opt_step : torch_optimizer → gmap loc loc → heap → heap * outcome (gmap loc data).
(** [optimizer.zero_grad()] *)
Variable opt_zero_grad : list loc → gmap loc loc → heap → heap * gmap loc loc.

Definition finish_update (self : shim) (optimizer : Optimizer) (w : world)
  : shim * Optimizer * world * outcome unit :=
  match _get_pytorch_optimizer model_parameters optim_init self optimizer
          (constructed w) with
  | (self, n, Raise e) => (self, optimizer, set_constructed w n, Raise e)
  | (self, n, Ok pytorch_opt) =>
      let w := set_constructed w n in
      let '(h, clipped) :=
        match grad_clip optimizer with
        | Some c =>
            if truthy_clip (Some c)
            then clip_grad_norm_ (model_parameters (_model self)) c (grad w) (bufs w)
            else (bufs w, Ok tt)
        | None => (bufs w, Ok tt)
        end in
      match clipped with
      | Raise e => (self, optimizer, set_bufs w h, Raise e)
      | Ok _ =>
          match opt_step pytorch_opt (grad w) h with
          | (h, Raise e) => (self, optimizer, set_bufs w h, Raise e)
          | (h, Ok st) =>
              let self := set_optimizer self (Some (set_opt_state pytorch_opt st)) in
              let '(h, g) := opt_zero_grad (opt_params pytorch_opt) (grad w) h in
              let '(h, optimizer) :=
                _update_pytorch_averages ops_update_averages self optimizer None h in
              (self, optimizer, set_grad (set_bufs w h) g, Ok tt)
          end
      end
  end.

(** A sequence of calls on one shim; a caller that catches a failure goes
    on with the next call. *)
Fixpoint finish_updates (self : shim) (calls : list Optimizer) (w : world)
  : shim * world * list (outcome unit) :=
  match calls with
  | [] => (self, w, [])
  | optimizer :: rest =>
      let '(self, _, w, r) := finish_update self optimizer w in
      let '(self, w, rs) := finish_updates self rest w in
      (self, w, r :: rs)
  end.
End training.

(** *** [begin_update] and its [backprop] (lines 41-54) *)

Inductive pyval :=
| PNone
| PInt (z : Z)
| PStr (s : string)
| PTensor (t : loc)
| PTuple (items : list pyval)
| PList (items : list pyval)
| PDict (items : list (string * pyval)).

(** Modelled from the spec: [ArgsKwargs] of [thinc.types] is not among the
    sources; it is an ordered sequence of positional values plus a mapping
    of named values. *)
Record ArgsKwargs := {
  args : list pyval;
  kwargs : list (string * pyval)
}.

(** [hasattr(x, "grad")]: every tensor has the attribute (it is [None] until
    a gradient is accumulated); numbers, strings and containers do not. *)
Definition hasattr_grad (x : pyval) : bool :=
  match x with PTensor _ => true | _ => false end.

(** [x.grad], read in the world [g] *)
Definition getattr_grad (g : gmap loc loc) (x : pyval) : pyval :=
  match x with
  | PTensor t => match g !! t with Some d => PTensor d | None => PNone end
  | _ => PNone
  end.

(** Modelled from the spec: [convert_recursive] of [thinc.util] is not among
    the sources.  The spec says that the closure "walks the original inputs
    payload" and replaces the values that match; so a value that matches is
    converted, a container is walked and rebuilt, anything else is kept. *)
Fixpoint convert_recursive (is_match : pyval → bool) (convert_item : pyval → pyval)
    (obj : pyval) : pyval :=
  if is_match obj then convert_item obj
  else
    match obj with
    | PTuple items => PTuple (map (convert_recursive is_match convert_item) items)
    | PList items => PList (map (convert_recursive is_match convert_item) items)
    | PDict items =>
        PDict (map (λ kv, (kv.1, convert_recursive is_match convert_item kv.2)) items)
    | _ => obj
    end.

Definition convert_payload (is_match : pyval → bool) (convert_item : pyval → pyval)
    (p : ArgsKwargs) : ArgsKwargs :=
  {| args := map (convert_recursive is_match convert_item) (args p);
     kwargs := map (λ kv, (kv.1, convert_recursive is_match convert_item kv.2)) (kwargs p) |}.

Definition set_training (m : torch_model) (b : bool) : torch_model :=
  {| named_parameters := named_parameters m; training := b; device := device m |}.

Definition set_model (self : shim) (m : torch_model) : shim :=
  {| shim_id := shim_id self; cfg := cfg self; _model := m; _optimizer := _optimizer self |}.

Section calling.
(** The call of [self._model] on the unpacked payload: the foreign
    forward pass. *)
Variable forward : torch_model → ArgsKwargs → world → world * outcome pyval.
(** [torch.autograd.backward] on the unpacked gradients: accumulates
    gradients into the [.grad] attributes. *)
Variable autograd_backward : ArgsKwargs → world → world * outcome unit.

Definition backprop (inputs : ArgsKwargs) (grads : ArgsKwargs) (w : world)
  : world * outcome ArgsKwargs :=
  match autograd_backward grads w with
  | (w, Raise e) => (w, Raise e)
  | (w, Ok _) =>
      (w, Ok (convert_payload hasattr_grad (getattr_grad (grad w)) inputs))
  end.

Definition begin_update (self : shim) (inputs : ArgsKwargs) (w : world)
  : shim * world * outcome (pyval * (ArgsKwargs → world → world * outcome ArgsKwargs)) :=
  let self := set_model self (set_training (_model self) true) in
  match forward (_model self) inputs w with
  | (w, Raise e) => (self, w, Raise e)
  | (w, Ok output) => (self, w, Ok (output, backprop inputs))
  end.
End calling.

(** *** [to_bytes] and [from_bytes] (lines 126-147) *)

Definition set_cfg (self : shim) (c : msgval) : shim :=
  {| shim_id := shim_id self; cfg := c; _model := _model self;
     _optimizer := _optimizer self |}.

(** [m.to(device)]: the buffers keep their values. *)
Definition to_device (m : torch_model) (d : torch_device) : torch_model :=
  {| named_parameters := named_parameters m; training := training m; device := d |}.

(** [msg[key]] *)
Definition getitem (msg : msgval) (key : string) : outcome msgval :=
  match msg with
  | MMap m =>
      match m !! key with
      | Some v => Ok v
      | None => Raise (KeyError key)
      end
  | _ => Raise TypeError
  end.

(** [BytesIO(x)]: a stream over the bytes [x]; [BytesIO(None)] is the empty
    stream; any other value is refused. *)
Definition BytesIO (x : msgval) : outcome (list Byte.byte) :=
  match x with
  | MBin b => Ok b
  | MNil => Ok []
  | _ => Raise TypeError
  end.

(** The tensors of a state that was just read: new buffers. *)
Fixpoint alloc_items (items : list (string * data)) (acc : gmap string loc)
    (h : heap) : heap * gmap string loc :=
  match items with
  | [] => (h, acc)
  | (k, d) :: rest =>
      let '(h1, t) := alloc d h in
      alloc_items rest (<[k := t]> acc) h1
  end.

(** The values that [state_dict()] holds at the moment. *)
Definition state_values (m : torch_model) (h : heap) : gmap string data :=
  buf h <$> named_parameters m.

Section serialization.
(** [srsly.msgpack_dumps], [srsly.msgpack_loads] *)
Variable msgpack_dumps : msgval → list Byte.byte.
Variable msgpack_loads : list Byte.byte → outcome msgval.
(** [torch.save] into a buffer, [torch.load] with a [map_location] *)
Variable torch_save : gmap string data → list Byte.byte.
Variable torch_load : torch_device → list Byte.byte → outcome (gmap string data).

(** [{"config": self.cfg, "state": weights_bytes}] *)
Definition envelope (self : shim) (h : heap) : gmap string msgval :=
  let weights_bytes := torch_save (state_values (_model self) h) in
  <["state" := MBin weights_bytes]> (<["config" := cfg self]> ∅).

Definition to_bytes (self : shim) (h : heap) : list Byte.byte :=
  msgpack_dumps (MMap (envelope self h)).

(** [device_type] is [get_current_ops().device_type]; [current_device] is
    [torch.cuda.current_device()]. *)
Definition from_bytes (self : shim) (device_type : string) (current_device : nat)
    (bytes_data : list Byte.byte) (h : heap) : shim * heap * outcome unit :=
  match msgpack_loads bytes_data with
  | Raise e => (self, h, Raise e)
  | Ok msg =>
      match getitem msg "config" with
      | Raise e => (self, h, Raise e)
      | Ok c =>
          let self := set_cfg self c in
          match getitem msg "state" ≫= BytesIO with
          | Raise e => (self, h, Raise e)
          | Ok filelike =>
              let map_location :=
                if decide (device_type = "cpu") then Cpu else Cuda current_device in
              match torch_load map_location filelike with
              | Raise e => (self, h, Raise e)
              | Ok loaded =>
                  let '(h, sd) := alloc_items (map_to_list loaded) ∅ h in
                  match load_state_dict (_model self) sd h with
                  | (h, Raise e) => (self, h, Raise e)
                  | (h, Ok _) =>
                      (set_model self (to_device (_model self) map_location), h, Ok tt)
                  end
              end
          end
      end
  end.
End serialization.

(** *** [predict] (lines 30-39) and [__call__] (lines 24-28) *)

(** What a callback handed out by [__call__] returns: the payload of
    gradients, or the [...] of the placeholder lambda of line 28. *)
Inductive callback_result :=
| Gradients (p : ArgsKwargs)
| Ellipsis.

Section inference.
(** The foreign forward pass, told whether gradients are tracked. *)
Variable forward : bool → torch_model → ArgsKwargs → world → world * outcome pyval.
Variable autograd_backward : ArgsKwargs → world → world * outcome unit.

(** [grad_enabled] is the global gradient mode.  [torch.no_grad()] turns it
    off for the block and puts the former mode back on every exit; the mode
    after the call is part of the result.  No [try] encloses the call of the
    model, so [self._model.train()] of line 38 runs only when it returns. *)
Definition predict (self : shim) (inputs : ArgsKwargs) (grad_enabled : bool)
    (w : world) : shim * bool * world * outcome pyval :=
  let self := set_model self (set_training (_model self) false) in
  match forward false (_model self) inputs w with
  | (w, Raise e) => (self, grad_enabled, w, Raise e)
  | (w, Ok outputs) =>
      (set_model self (set_training (_model self) true), grad_enabled, w, Ok outputs)
  end.

Definition __call__ (self : shim) (inputs : ArgsKwargs) (is_train : bool)
    (grad_enabled : bool) (w : world)
  : shim * bool * world *
    outcome (pyval * (ArgsKwargs → world → world * outcome callback_result)) :=
  if is_train then
    match begin_update (forward grad_enabled) autograd_backward self inputs w with
    | (self, w, Raise e) => (self, grad_enabled, w, Raise e)
    | (self, w, Ok (output, backprop)) =>
        (self, grad_enabled, w,
         Ok (output, λ grads w,
               match backprop grads w with
               | (w, Ok g) => (w, Ok (Gradients g))
               | (w, Raise e) => (w, Raise e)
               end))
    end
  else
    match predict self inputs grad_enabled w with
    | (self, g, w, Raise e) => (self, g, w, Raise e)
    | (self, g, w, Ok outputs) => (self, g, w, Ok (outputs, λ a w, (w, Ok Ellipsis)))
    end.
End inference.

(** * Instances used below *)

(** A shim with two parameters, and averages for both under its prefix. *)
Definition demo_model : torch_model :=
  {| named_parameters := <["w" := 1%positive]> (<["b" := 2%positive]> ∅);
     training := true; device := Cpu |}.

Definition demo_shim : shim :=
  {| shim_id := 0; cfg := MStr "cnn"; _model := demo_model; _optimizer := None |}.

Definition demo_heap : heap :=
  <[1%positive := [10%Z]]> (<[2%positive := [20%Z]]>
    (<[3%positive := [30%Z]]> (<[4%positive := [40%Z]]> ∅))).

Definition demo_params : list (pykey * loc) :=
  [(KStr "pytorch_0_w", 3%positive); (KTuple 5 "W", 4%positive);
   (KStr "pytorch_0_b", 4%positive)].

(** Work that overwrites the live parameter ["w"] and returns. *)
Definition demo_work (h : heap) : heap * outcome unit :=
  (<[1%positive := [99%Z]]> h, Ok tt).


(** A generic optimizer set up for momentum SGD: [b1 = 0.9], [b2 = 0],
    [L2 = 0]; the other fields are free. *)
Definition momentum_sgd (lr eps : float) (wd : bool) (clip : option float)
    (av : option (gmap pykey loc)) (nr : gmap pykey Z) : Optimizer :=
  {| learn_rate := lr; L2 := 0%float; b1 := 0.9%float; b2 := 0%float; eps := eps;
     L2_is_weight_decay := wd; grad_clip := clip; averages := av; nr_update := nr |}.

(** A generic optimizer set up for Adam: [b1 = 0.9], [b2 = 0.999],
    [eps = 1e-8], [L2 = 0.01]. *)
Definition adam_sgd (lr : float) (wd : bool) : Optimizer :=
  {| learn_rate := lr; L2 := 0.01%float; b1 := 0.9%float; b2 := 0.999%float;
     eps := 1e-8%float; L2_is_weight_decay := wd; grad_clip := None;
     averages := None; nr_update := ∅ |}.

(** A foreign model whose forward pass returns one bare tensor. *)
Definition bare_forward (t : loc) (m : torch_model) (inputs : ArgsKwargs) (w : world)
  : world * outcome pyval :=
  (w, Ok (PTensor t)).

(** A backward pass that accumulates a gradient (tensor 9) for tensor 2 and
    none for tensor 1. *)
Definition demo_backward (grads : ArgsKwargs) (w : world) : world * outcome unit :=
  (set_grad w (<[2%positive := 9%positive]> (grad w)), Ok tt).

Definition demo_inputs : ArgsKwargs :=
  {| args := [PTensor 1%positive; PTensor 2%positive; PInt 5];
     kwargs := [("mask", PTensor 1%positive)] |}.

Definition demo_world : world :=
  {| bufs := demo_heap; grad := ∅; constructed := 0 |}.

(** A moving-average rule on integer buffers, for running instances. *)
Definition demo_rule (ema weights : data) (t : Z) : data :=
  zip_with (λ a b, a + (b - a) / t)%Z ema weights.

(** An optimizer that already averages parameter ["w"] of shim 0 (in
    buffer 3) and has counted one update for it. *)
Definition demo_averaging_sgd : Optimizer :=
  {| learn_rate := 0.001%float; L2 := 0%float; b1 := 0.9%float; b2 := 0.999%float;
     eps := 1e-8%float; L2_is_weight_decay := false; grad_clip := None;
     averages := Some {[ KStr "pytorch_0_w" := 3%positive ]};
     nr_update := {[ KStr "pytorch_0_w" := 1%Z ]} |}.

(** Reference codecs for running instances.  The envelope codec writes, for
    each of the two fields, a presence byte and the field (a string for
    [config], bytes for [state]); the tensor codec writes every entry as
    its name and its values, each with a length byte in front. *)
Definition byte_of_Z (z : Z) : Byte.byte :=
  default Byte.x00 (Byte.of_nat (Z.to_nat z)).

Definition Z_of_byte (b : Byte.byte) : Z := Z.of_nat (Byte.to_nat b).

Definition demo_dumps (v : msgval) : list Byte.byte :=
  match v with
  | MMap m =>
      match m !! "config" with
      | Some (MStr c) =>
          Byte.x01 :: byte_of_Z (Z.of_nat (String.length c)) :: list_byte_of_string c
      | _ => [Byte.x00]
      end ++
      match m !! "state" with
      | Some (MBin b) => Byte.x01 :: b
      | _ => [Byte.x00]
      end
  | _ => []
  end.

Definition demo_loads (bs : list Byte.byte) : outcome msgval :=
  let '(config_part, rest) :=
    match bs with
    | Byte.x01 :: n :: rest =>
        let k := Byte.to_nat n in
        (Some (MStr (string_of_list_byte (take k rest))), drop k rest)
    | _ :: rest => (None, rest)
    | [] => (None, [])
    end in
  let with_config : gmap string msgval :=
    match config_part with
    | Some c => <["config" := c]> ∅
    | None => ∅
    end in
  match rest with
  | Byte.x01 :: b => Ok (MMap (<["state" := MBin b]> with_config))
  | _ => Ok (MMap with_config)
  end.

Definition demo_save (vals : gmap string data) : list Byte.byte :=
  flat_map (λ kv : string * data,
      byte_of_Z (Z.of_nat (String.length kv.1)) :: list_byte_of_string kv.1 ++
      byte_of_Z (Z.of_nat (length kv.2)) :: (byte_of_Z <$> kv.2))
    (map_to_list vals).

Fixpoint demo_load_go (fuel : nat) (bs : list Byte.byte) (acc : gmap string data)
  : outcome (gmap string data) :=
  match fuel with
  | O => Raise RuntimeError
  | S fuel =>
      match bs with
      | [] => Ok acc
      | n :: rest =>
          let k := Byte.to_nat n in
          let name := string_of_list_byte (take k rest) in
          match drop k rest with
          | m :: rest' =>
              let j := Byte.to_nat m in
              demo_load_go fuel (drop j rest') (<[name := Z_of_byte <$> take j rest']> acc)
          | [] => Raise RuntimeError
          end
      end
  end.

Definition demo_load (d : torch_device) (bs : list Byte.byte)
  : outcome (gmap string data) :=
  demo_load_go (S (length bs)) bs ∅.

Definition adam_args_of (lr : float) : gmap string argval :=
  <["eps" := AFloat 1e-8%float]>
    (<["betas" := APair 0.9%float 0.999%float]>
       (<["weight_decay" := AFloat 0.01%float]> (<["lr" := AFloat lr]> ∅))).

(** Foreign training calls for running instances: clipping and clearing
    that change nothing, a step that reports a numerical failure, and a step
    that succeeds without changing anything. *)
Definition demo_clip (ps : list loc) (c : float) (g : gmap loc loc) (h : heap)
  : heap * outcome unit := (h, Ok tt).

Definition demo_zero_grad (ps : list loc) (g : gmap loc loc) (h : heap)
  : heap * gmap loc loc := (h, ∅).

Definition failing_step (o : torch_optimizer) (g : gmap loc loc) (h : heap)
  : heap * outcome (gmap loc data) := (h, Raise RuntimeError).

Definition demo_step (o : torch_optimizer) (g : gmap loc loc) (h : heap)
  : heap * outcome (gmap loc data) := (h, Ok (opt_state o)).

(** A foreign model without registered buffers: every tensor of its state
    is a parameter. *)
Definition demo_parameters (m : torch_model) : list loc := state_tensors m.

(** Constructor checks for running instances: an empty parameter list and
    a learning rate below zero are refused. *)
Definition demo_init (cls : optim_cls) (ps : list loc) (args : gmap string argval)
  : outcome unit :=
  match ps with
  | [] => Raise ValueError
  | _ =>
      match args !! "lr" with
      | Some (AFloat lr) => if PrimFloat.ltb lr 0%float then Raise ValueError else Ok tt
      | _ => Ok tt
      end
  end.

(** A shim whose optimizer was constructed as plain Adam, with a group that
    also holds an entry the adapter never names. *)
Definition demo_adam_optimizer : torch_optimizer :=
  {| opt_id := 0; opt_cls := Adam; opt_params := [1%positive; 2%positive];
     param_groups := [ <["amsgrad" := AFloat 0%float]> (adam_args_of 0.001%float) ];
     opt_state := ∅ |}.

Definition demo_trained_shim : shim :=
  {| shim_id := 0; cfg := MStr "cnn"; _model := demo_model;
     _optimizer := Some demo_adam_optimizer |}.

(** Bytes of a state with other values for the two parameters, and bytes of
    a state for a model with another parameter name. *)
Definition demo_other_values : gmap string data :=
  <["w" := [7%Z]]> (<["b" := [8%Z]]> ∅).

Definition demo_other_bytes : list Byte.byte :=
  demo_dumps (MMap (<["state" := MBin (demo_save demo_other_values)]>
                      (<["config" := MStr "v2"]> ∅))).

Definition demo_foreign_bytes : list Byte.byte :=
  demo_dumps (MMap (<["state" := MBin (demo_save (<["x" := [7%Z]]> ∅))]>
                      (<["config" := MStr "v2"]> ∅))).

(** A forward pass that returns tensor 1 when gradients are off and fails
    when they are on. *)
Definition demo_forward (grad_enabled : bool) (m : torch_model) (inputs : ArgsKwargs)
    (w : world) : world * outcome pyval :=
  if grad_enabled then (w, Raise RuntimeError) else (w, Ok (PTensor 1%positive)).

(** * Vocabulary of the statements *)

(** The arguments that lines 67-74 build on the Adam path. *)
Definition adam_args (sgd : Optimizer) : gmap string argval :=
  <["eps" := AFloat (eps sgd)]>
    (<["betas" := APair (b1 sgd) (b2 sgd)]>
       (<["weight_decay" := AFloat (L2 sgd)]>
          (<["lr" := AFloat (learn_rate sgd)]> ∅))).

Definition adam_family (sgd : Optimizer) : bool :=
  nonzero (b1 sgd) && nonzero (b2 sgd).

Definition adam_cls (sgd : Optimizer) : optim_cls :=
  if L2_is_weight_decay sgd then AdamW else Adam.

(** Two optimizer objects that are the same object with the same
    hyperparameters (their internal state may differ). *)
Definition same_config (o o' : torch_optimizer) : Prop :=
  opt_id o' = opt_id o ∧ opt_cls o' = opt_cls o ∧
  opt_params o' = opt_params o ∧ param_groups o' = param_groups o.

(** The parameter groups after the calls [calls] updated them in turn. *)
Definition update_all (gs : list (gmap string argval)) (calls : list Optimizer)
  : list (gmap string argval) :=
  fold_left (λ gs c, (λ g, adam_args c ∪ g) <$> gs) calls gs.

(** The payload of gradients as the amended C4 words it: every tensor is
    replaced by its [grad] attribute (the accumulated gradient, or [None]
    when there is none); containers are walked; other values are kept. *)
Fixpoint grads_of (g : gmap loc loc) (x : pyval) : pyval :=
  match x with
  | PTensor t =>
      match g !! t with
      | Some d => PTensor d
      | None => PNone
      end
  | PTuple items => PTuple (map (grads_of g) items)
  | PList items => PList (map (grads_of g) items)
  | PDict items => PDict (map (λ kv, (kv.1, grads_of g kv.2)) items)
  | PNone => PNone
  | PInt z => PInt z
  | PStr s => PStr s
  end.

Definition grads_of_payload (g : gmap loc loc) (p : ArgsKwargs) : ArgsKwargs :=
  {| args := map (grads_of g) (args p);
     kwargs := map (λ kv, (kv.1, grads_of g kv.2)) (kwargs p) |}.

(** The running averages own their buffers: every average is allocated, no
    two keys share a buffer, and no average is a view of a live parameter
    (the parameters are [M]). *)
Definition avg_wf (h : heap) (av : gmap pykey loc) (M : list loc) : Prop :=
  (∀ k x, av !! k = Some x → x ∈ dom h) ∧
  (∀ k1 k2 x, av !! k1 = Some x → av !! k2 = Some x → k1 = k2) ∧
  (∀ k x, av !! k = Some x → x ∉ M) ∧
  (∀ l, l ∈ M → l ∈ dom h).

(** No underscore among the characters of a string. *)
Fixpoint no_underscore (s : string) : Prop :=
  match s with
  | EmptyString => True
  | String c s' => c ≠ "_"%char ∧ no_underscore s'
  end.

(** * Properties *)

(** ** Strings *)

Lemma prefix_app (p s : string) : String.prefix p (p ++ s) = true.
Proof.
  induction p as [|a p IH]; simpl.
  - by destruct s.
  - destruct (Ascii.ascii_dec a a); [exact IH | congruence].
Qed.

Lemma prefix_empty_r (p : string) : String.prefix p "" = true → p = "".
Proof. by destruct p. Qed.

(** Dropping the rest of an occurrence: [skip] characters go by unseen. *)
Lemma replace_go_skip (old new q s : string) :
  replace_go old new (q ++ s) (String.length q) = replace_go old new s 0.
Proof. induction q as [|a q IH]; simpl; [done | exact IH]. Qed.

Lemma replace_go_cons (old new : string) (c : Ascii.ascii) (s : string) (skip : nat) :
  replace_go old new (String c s) skip =
  match skip with
  | S k => replace_go old new s k
  | O =>
      if String.prefix old (String c s)
      then new ++ replace_go old new s (String.length old - 1)
      else String c (replace_go old new s 0)
  end.
Proof. done. Qed.

Lemma contains_cons (old : string) (c : Ascii.ascii) (s : string) :
  contains old (String c s) = String.prefix old (String c s) || contains old s.
Proof. done. Qed.

Lemma append_empty_l (s : string) : "" ++ s = s.
Proof. done. Qed.

Lemma replace_go_length (old s : string) (skip : nat) :
  (String.length (replace_go old "" s skip) ≤ String.length s)%nat.
Proof.
  revert skip. induction s as [|c s IH]; intros skip; [simpl; lia|].
  rewrite replace_go_cons. destruct skip as [|k].
  - destruct (String.prefix old (String c s)).
    + specialize (IH (String.length old - 1)). rewrite append_empty_l. cbn [String.length]. lia.
    + specialize (IH 0). cbn [String.length]. lia.
  - specialize (IH k). cbn [String.length]. lia.
Qed.

Lemma replace_go_shrinks (old s : string) :
  old ≠ "" → contains old s = true →
  (String.length (replace_go old "" s 0) < String.length s)%nat.
Proof.
  intros Hne. induction s as [|c s IH].
  - simpl. rewrite orb_false_r. intros H. by apply prefix_empty_r in H.
  - rewrite contains_cons, replace_go_cons.
    destruct (String.prefix old (String c s)).
    + intros _. pose proof (replace_go_length old s (String.length old - 1)).
      rewrite append_empty_l. cbn [String.length]. lia.
    + intros H. specialize (IH H). cbn [String.length]. lia.
Qed.

Lemma replace_go_absent (old s : string) :
  contains old s = false → replace_go old "" s 0 = s.
Proof.
  induction s as [|c s IH]; [done|].
  rewrite contains_cons, replace_go_cons.
  intros H. apply orb_false_elim in H as [Hp Hc].
  rewrite Hp. by rewrite IH.
Qed.

(** Stripping the prefix from [prefix ++ name] by [replace] also strips its
    occurrences inside [name]. *)
Lemma str_replace_prefixed (pre name : string) :
  pre ≠ "" → str_replace pre "" (pre ++ name) = str_replace pre "" name.
Proof.
  intros Hne. destruct pre as [|a pre]; [done|].
  unfold str_replace.
  change (String a pre ++ name) with (String a (pre ++ name)) at 1.
  rewrite replace_go_cons.
  change (String a (pre ++ name)) with (String a pre ++ name).
  rewrite prefix_app, append_empty_l. cbn [String.length].
  replace (S (String.length pre) - 1) with (String.length pre) by lia.
  apply replace_go_skip.
Qed.

Lemma key_prefix_nonempty (self : shim) : key_prefix self ≠ "".
Proof. done. Qed.

Lemma str_replace_recovers (pre name : string) :
  pre ≠ "" →
  str_replace pre "" (pre ++ name) = name ↔ contains pre name = false.
Proof.
  intros Hne. rewrite str_replace_prefixed by done. split.
  - intros Heq. destruct (contains pre name) eqn:Hc; [|done].
    destruct pre as [|a pre]; [done|]. unfold str_replace in Heq.
    pose proof (replace_go_shrinks (String a pre) name Hne Hc) as Hlt.
    rewrite Heq in Hlt. lia.
  - intros Hc. destruct pre as [|a pre]; [done|]. by apply replace_go_absent.
Qed.

(** ** [use_params]: which keys are substituted, and under which names *)

(** On a mapping whose keys are [str] or have no [startswith], the loop
    over keys of any kind is [collect_state_dict], and the generator is
    [use_params]. *)
Lemma collect_any_plain (pre : string) (items : list (pykey * loc))
    (sd : gmap string loc) :
  collect_any pre (prod_map Key id <$> items) sd = Ok (collect_state_dict pre items sd).
Proof.
  revert sd. induction items as [|[k v] items IH]; intros sd; [done|].
  rewrite fmap_cons. cbn [prod_map fst snd id collect_any collect_state_dict].
  destruct k as [ks|n|i n]; cbn [hasattr_startswith has_startswith call_startswith
    call_replace andb]; [|apply IH..].
  destruct (startswith ks pre); apply IH.
Qed.

Lemma use_params_any_plain (self : shim) (items : list (pykey * loc))
    (work : heap → heap * outcome unit) (h : heap) :
  with_block (use_params_any self (prod_map Key id <$> items)) work h =
  with_block (use_params self items) work h.
Proof.
  unfold with_block, use_params_any, use_params. cbn [before_yield after_yield on_throw].
  by rewrite collect_any_plain.
Qed.

(** Only a [bytes] key makes the loop raise, wherever it stands. *)
Lemma collect_any_bytes (pre : string) (before rest : list (anykey * loc))
    (b : list Byte.byte) (v : loc) (sd : gmap string loc) :
  collect_any pre (before ++ (KBytes b, v) :: rest) sd = Raise TypeError.
Proof.
  revert sd. induction before as [|[k w] before IH]; intros sd; [done|].
  rewrite <- app_comm_cons. cbn [collect_any].
  destruct k as [[ks|n|i n]|b']; cbn [hasattr_startswith has_startswith call_startswith
    call_replace]; try apply IH; [|done].
  destruct (startswith ks pre); apply IH.
Qed.

(** The claim as first worded has every key that is not a string skipped
    without an error.  A [bytes] key is not a string; the loop raises a
    [TypeError] for it, so the scope is never entered and the work does not
    run, while the same mapping without that key enters the scope. *)
Lemma bytes_key_not_skipped :
  let k := KBytes (list_byte_of_string "pytorch_0_w") in
  let rest := [(Key (KStr "pytorch_0_w"), 3%positive); (Key (KStr "pytorch_0_b"), 4%positive)] in
  (∀ ks, k ≠ Key (KStr ks)) ∧
  collect_any (key_prefix demo_shim) ((k, 4%positive) :: rest) ∅ = Raise TypeError ∧
  collect_any (key_prefix demo_shim) rest ∅ =
    Ok (<["b" := 4%positive]> (<["w" := 3%positive]> ∅)) ∧
  with_block (use_params_any demo_shim ((k, 4%positive) :: rest)) demo_work demo_heap =
    (demo_heap, Raise TypeError) ∧
  (with_block (use_params_any demo_shim rest) demo_work demo_heap).2 = Ok tt.
Proof. split; [done|]. by vm_compute. Qed.

(** C10, amended.  [use_params] considers a key when it has a [startswith]
    attribute.  A key without it (a tuple, a number) is skipped and nothing
    is raised for it, and so is a string key that does not start with the
    shim's prefix; a key that has the attribute without being a string (a
    [bytes] key) is not skipped: wherever it stands in the mapping, the loop
    raises a [TypeError], and the [with] statement ends with it, no buffer
    changed and the block not run.  A matching string key is loaded under the
    name that [replace] gives, which removes every occurrence of the prefix:
    [replace] is the same on the key and on its name part, so the name is
    recovered exactly when it does not contain the prefix, and when it does
    the value is loaded under another name. *)
Theorem use_params_key_handling (self : shim) (k : anykey) (v : loc)
    (before rest : list (anykey * loc)) (sd : gmap string loc) (name : string)
    (work : heap → heap * outcome unit) (h : heap) :
  let pre := key_prefix self in
  (hasattr_startswith k = false →
     collect_any pre ((k, v) :: rest) sd = collect_any pre rest sd) ∧
  (∀ ks, k = Key (KStr ks) → startswith ks pre = false →
     collect_any pre ((k, v) :: rest) sd = collect_any pre rest sd) ∧
  (∀ ks, k = Key (KStr ks) → startswith ks pre = true →
     collect_any pre ((k, v) :: rest) sd =
     collect_any pre rest (<[str_replace pre "" ks := xp2torch v]> sd)) ∧
  (∀ b, k = KBytes b →
     hasattr_startswith k = true ∧
     collect_any pre (before ++ (k, v) :: rest) sd = Raise TypeError ∧
     with_block (use_params_any self (before ++ (k, v) :: rest)) work h =
       (h, Raise TypeError)) ∧
  startswith (pre ++ name) pre = true ∧
  str_replace pre "" (pre ++ name) = str_replace pre "" name ∧
  (String.length (str_replace pre "" name) ≤ String.length name)%nat ∧
  (contains pre name = true → str_replace pre "" (pre ++ name) ≠ name) ∧
  (contains pre name = false → str_replace pre "" (pre ++ name) = name).
Proof.
  intros pre. pose proof (key_prefix_nonempty self) as Hne. fold pre in Hne.
  repeat split.
  - intros Hk. cbn [collect_any]. by rewrite Hk.
  - intros ks -> Hs. cbn [collect_any hasattr_startswith has_startswith call_startswith].
    by rewrite Hs.
  - intros ks -> Hs. cbn [collect_any hasattr_startswith has_startswith call_startswith
      call_replace]. by rewrite Hs.
  - by subst k.
  - subst k. apply collect_any_bytes.
  - subst k. unfold with_block, use_params_any. cbn [before_yield].
    fold pre. by rewrite collect_any_bytes.
  - apply prefix_app.
  - by apply str_replace_prefixed.
  - unfold str_replace. destruct pre; [done|]. apply replace_go_length.
  - intros Hc Heq. apply str_replace_recovers in Heq; [congruence | done].
  - intros Hc. by apply str_replace_recovers.
Qed.

(** An instance: in a mapping of shim 0 that holds a tuple key, a key for a
    parameter named ["head.pytorch_0_w"] and a [bytes] key, the loop raises;
    without the [bytes] key the tuple key is skipped and the string key is
    loaded as ["head.w"]. *)
Lemma use_params_key_handling_witness :
  collect_any "pytorch_0_"
    [(Key (KTuple 3 "W"), 7%positive);
     (Key (KStr "pytorch_0_head.pytorch_0_w"), 9%positive)] ∅
  = Ok {[ "head.w" := 9%positive ]} ∧
  collect_any (key_prefix demo_shim)
    ([(Key (KTuple 3 "W"), 7%positive)] ++
     (KBytes [Byte.x77], 8%positive) ::
     [(Key (KStr "pytorch_0_head.pytorch_0_w"), 9%positive)]) ∅
  = Raise TypeError ∧
  str_replace "pytorch_0_" "" ("pytorch_0_" ++ "head.pytorch_0_w") ≠ "head.pytorch_0_w".
Proof.
  pose proof (use_params_key_handling demo_shim (KBytes [Byte.x77]) 8%positive
    [(Key (KTuple 3 "W"), 7%positive)]
    [(Key (KStr "pytorch_0_head.pytorch_0_w"), 9%positive)] ∅ "head.pytorch_0_w"
    demo_work demo_heap) as (_ & _ & _ & Hb & _ & _ & _ & Hc & _).
  split; [by vm_compute|]. split.
  - by destruct (Hb [Byte.x77] eq_refl) as (_ & Hraise & _).
  - apply Hc. by vm_compute.
Defined.

(** ** The heap: allocation, snapshots and in-place loads *)

Lemma buf_lookup (h : heap) (l : loc) (d : data) : h !! l = Some d → buf h l = d.
Proof. unfold buf. by intros ->. Qed.

Lemma buf_eq (h h' : heap) (l : loc) : h' !! l = h !! l → buf h' l = buf h l.
Proof. unfold buf. by intros ->. Qed.

Lemma alloc_fresh (d : data) (h h' : heap) (l : loc) :
  alloc d h = (h', l) → (l ∉ dom h) ∧ h' = <[l := d]> h.
Proof. unfold alloc. intros [= <- <-]. split; [apply is_fresh | done]. Qed.

(** A snapshot leaves the buffers that exist alone and puts a copy of every
    item into a buffer that did not exist before. *)
Lemma clone_items_spec (items : list (string * loc)) :
  ∀ (acc : gmap string loc) (h h' : heap) (bk : gmap string loc),
  clone_items items acc h = (h', bk) →
  NoDup (items.*1) →
  (∀ k l, (k, l) ∈ items → l ∈ dom h) →
  (∀ l, l ∈ dom h → h' !! l = h !! l) ∧
  (∀ k, k ∉ (items.*1) → bk !! k = acc !! k) ∧
  (∀ k l, (k, l) ∈ items →
     ∃ src, bk !! k = Some src ∧ (src ∉ dom h) ∧ h' !! src = Some (buf h l)).
Proof.
  induction items as [|[k v] rest IH]; intros acc h h' bk Hrun Hnd Hin.
  - simpl in Hrun. injection Hrun as <- <-. split_and!; [done | done |].
    intros k l Hk. by apply elem_of_nil in Hk.
  - cbn [clone_items] in Hrun. unfold clone, alloc in Hrun. cbv zeta in Hrun.
    pose proof (is_fresh (dom h)) as Hc. set (c := fresh (dom h)) in *.
    apply NoDup_cons in Hnd as [Hk Hnd].
    specialize (IH _ _ _ _ Hrun Hnd) as (Hold & Hacc & Hnew).
    { intros k' l' Hk'. rewrite dom_insert_L. apply elem_of_union_r.
      apply (Hin k' l'). by right. }
    assert (Hkeep : ∀ l, l ∈ dom h → h' !! l = h !! l).
    { intros l Hl. rewrite Hold by (rewrite dom_insert_L; set_solver).
      apply lookup_insert_ne. intros ->. done. }
    split_and!; [done | |].
    + intros k' Hk'. rewrite fmap_cons in Hk'. apply not_elem_of_cons in Hk' as [Hne Hk'].
      rewrite Hacc by done. by apply lookup_insert_ne.
    + intros k' l' Hk'. apply elem_of_cons in Hk' as [[= -> ->]|Hk'].
      * exists c. split_and!; [| done |].
        -- rewrite Hacc by done. apply lookup_insert_eq.
        -- rewrite Hold by (rewrite dom_insert_L; set_solver). apply lookup_insert_eq.
      * destruct (Hnew k' l' Hk') as (src & Hb & Hsrc & Hv). exists src.
        rewrite dom_insert_L in Hsrc. split_and!; [done | set_solver |].
        rewrite Hv. f_equal. apply buf_eq, lookup_insert_ne.
        intros ->. apply Hc, (Hin k' l'). by right.
Qed.

(** A load writes the buffers of the own parameters only. *)
Lemma copy_params_frame (own : list (string * loc)) (sd : gmap string loc) :
  ∀ (h : heap) (l : loc), l ∉ (own.*2) → copy_params own sd h !! l = h !! l.
Proof.
  induction own as [|[n p] rest IH]; intros h l Hl; [done|].
  rewrite fmap_cons in Hl. apply not_elem_of_cons in Hl as [Hne Hl]. simpl in Hne.
  simpl. destruct (sd !! n) as [src|]; [|by apply IH].
  rewrite IH by done. by apply lookup_insert_ne.
Qed.

(** Loading a state whose tensors lie apart from the own parameters (outside
    [D]) and hold, for each parameter, the content [old] has there, makes
    every own parameter hold that content. *)
Lemma copy_params_restore (own : list (string * loc)) (sd : gmap string loc)
    (old : heap) (D : gset loc) :
  ∀ h : heap,
  (∀ n l, (n, l) ∈ own →
     l ∈ D ∧ ∃ src, sd !! n = Some src ∧ (src ∉ D) ∧ h !! src = Some (buf old l)) →
  ∀ l, l ∈ (own.*2) → buf (copy_params own sd h) l = buf old l.
Proof.
  induction own as [|[n p] rest IH]; intros h Hown l Hl.
  - by apply elem_of_nil in Hl.
  - destruct (Hown n p) as (Hp & src & Hsd & Hsrc & Hv); [by left|].
    simpl. rewrite Hsd. rewrite (buf_lookup _ _ _ Hv).
    destruct (decide (l ∈ (rest.*2))) as [Hr|Hr].
    + apply IH; [|done]. intros n' l' Hn'.
      destruct (Hown n' l') as (Hl' & src' & Hsd' & Hsrc' & Hv'); [by right|].
      split; [done|]. exists src'. split_and!; [done | done |].
      rewrite lookup_insert_ne; [done|]. intros ->. done.
    + rewrite fmap_cons in Hl. apply elem_of_cons in Hl as [->|Hl]; [|done].
      simpl. apply buf_lookup. rewrite copy_params_frame by done.
      apply lookup_insert_eq.
Qed.

Lemma load_state_dict_heap (m : torch_model) (sd : gmap string loc) (h : heap) :
  (load_state_dict m sd h).1 = copy_params (map_to_list (named_parameters m)) sd h.
Proof. unfold load_state_dict. by case_decide. Qed.

Lemma load_state_dict_ok (m : torch_model) (sd : gmap string loc) (h : heap) :
  dom sd = dom (named_parameters m) → (load_state_dict m sd h).2 = Ok tt.
Proof. intros Hd. unfold load_state_dict. by rewrite decide_True. Qed.

Lemma elem_of_state_tensors (m : torch_model) (l : loc) :
  l ∈ state_tensors m ↔ ∃ name, named_parameters m !! name = Some l.
Proof.
  unfold state_tensors. rewrite list_elem_of_fmap. split.
  - intros ([n l'] & -> & Hin). exists n. by apply elem_of_map_to_list.
  - intros [n Hn]. exists (n, l). split; [done|]. by apply elem_of_map_to_list.
Qed.

(** ** [use_params]: the scope and its two exits *)

Lemma collect_keeps_nonempty (pre : string) (P : list (pykey * loc)) :
  ∀ acc : gmap string loc, acc ≠ ∅ → collect_state_dict pre P acc ≠ ∅.
Proof.
  induction P as [|[k v] rest IH]; intros acc Hacc; [done|].
  destruct k as [ks| |]; simpl; [|by apply IH..].
  destruct (startswith ks pre); [|by apply IH].
  apply IH, insert_non_empty.
Qed.

Lemma collect_matching (pre : string) (P : list (pykey * loc)) :
  ∀ acc : gmap string loc,
  has_matching_key pre P = true → collect_state_dict pre P acc ≠ ∅.
Proof.
  induction P as [|[k v] rest IH]; intros acc Hm; [done|].
  simpl in Hm. destruct k as [ks| |]; simpl in *; [|by apply IH..].
  destruct (startswith ks pre); [|by apply IH].
  apply collect_keeps_nonempty, insert_non_empty.
Qed.

Lemma collect_no_match (pre : string) (P : list (pykey * loc)) :
  ∀ acc : gmap string loc,
  has_matching_key pre P = false → collect_state_dict pre P acc = acc.
Proof.
  induction P as [|[k v] rest IH]; intros acc Hm; [done|].
  simpl in Hm. destruct k as [ks| |]; simpl in *; [|by apply IH..].
  destruct (startswith ks pre); [done | by apply IH].
Qed.

(** C1, as the code has it.  Let the mapping hold a matching key and let the
    scope be entered (the substituted state was loaded).  The caller's work
    may write every buffer it can reach (those of [F], which existed before
    the scope, and the ones it allocates).  When the work returns, the scope
    exits normally and every parameter of the foreign model holds the value
    it had before the scope.  When the work raises, the exception leaves the
    scope with the buffers exactly as the work left them. *)
Theorem use_params_scope (self : shim) (P : list (pykey * loc))
    (work : heap → heap * outcome unit) (h : heap) (F : gset loc) :
  has_matching_key (key_prefix self) P = true →
  (∀ l, l ∈ state_tensors (_model self) → l ∈ dom h) →
  F ⊆ dom h →
  (∀ h' l, l ∈ dom h' → l ∉ F → (work h').1 !! l = h' !! l) →
  ∀ h1 fr, before_yield (use_params self P) h = (h1, Ok fr) →
  (∀ h2, work h1 = (h2, Ok tt) →
     ∃ h3, with_block (use_params self P) work h = (h3, Ok tt) ∧
       ∀ name l, named_parameters (_model self) !! name = Some l →
                 buf h3 l = buf h l) ∧
  (∀ h2 e, work h1 = (h2, Raise e) →
     with_block (use_params self P) work h = (h2, Raise e)).
Proof.
  intros Hm Hal HF Hframe h1 fr Hb. split.
  - intros h2 Hw. unfold with_block. rewrite Hb, Hw.
    cbn [use_params before_yield after_yield] in *.
    rewrite decide_False in Hb by by apply collect_matching.
    destruct (clone_items _ ∅ h) as [h0 backup] eqn:Hc.
    destruct (load_state_dict _ _ h0) as [h1' [[]|e]] eqn:Hl; [|done].
    injection Hb as <- <-.
    set (m := _model self) in *. set (own := map_to_list (named_parameters m)) in *.
    destruct (clone_items_spec own ∅ h h0 backup Hc) as (Hold & Hacc & Hnew).
    { apply NoDup_fst_map_to_list. }
    { intros k l Hk. apply Hal, elem_of_state_tensors. exists k.
      by apply elem_of_map_to_list. }
    assert (Hdom : dom backup = dom (named_parameters m)).
    { apply set_eq. intros k. rewrite !elem_of_dom. split.
      - intros [src Hsrc]. destruct (named_parameters m !! k) as [l|] eqn:Hk; [done|].
        rewrite Hacc in Hsrc; [done|]. intros Hin.
        apply list_elem_of_fmap in Hin as ([k' l'] & -> & Hin).
        apply elem_of_map_to_list in Hin. simpl in Hk. congruence.
      - intros [l Hk]. apply elem_of_map_to_list in Hk.
        destruct (Hnew k l Hk) as (src & Hsrc & _). by exists src. }
    exists (load_state_dict m backup h2).1. split.
    { destruct (load_state_dict m backup h2) as [h3 r] eqn:Hr.
      pose proof (load_state_dict_ok m backup h2 Hdom) as Hok.
      rewrite Hr in Hok. simpl in *. by subst r. }
    intros name l Hname. rewrite load_state_dict_heap. fold own.
    apply (copy_params_restore own backup h (dom h)).
    + intros n p Hn. split.
      { apply Hal, elem_of_state_tensors. exists n. by apply elem_of_map_to_list. }
      destruct (Hnew n p Hn) as (src & Hsrc & Hfresh & Hv). exists src.
      split_and!; [done | done |].
      assert (Hown : src ∉ (own.*2)).
      { intros Hin. apply Hfresh, Hal. exact Hin. }
      assert (H1 : h1' !! src = Some (buf h p)).
      { pose proof (load_state_dict_heap m
          (collect_state_dict (key_prefix self) P ∅) h0) as Hh.
        rewrite Hl in Hh. simpl in Hh. rewrite Hh.
        by rewrite copy_params_frame. }
      pose proof (Hframe h1' src) as Hfr. rewrite Hw in Hfr. simpl in Hfr.
      rewrite Hfr; [done | by apply elem_of_dom |].
      intros HinF. by apply Hfresh, HF.
    + apply list_elem_of_fmap. exists (name, l). split; [done|].
      by apply elem_of_map_to_list.
  - intros h2 e Hw. unfold with_block. by rewrite Hb, Hw.
Qed.

Lemma use_params_scope_witness :
  ∃ h3, with_block (use_params demo_shim demo_params) demo_work demo_heap = (h3, Ok tt) ∧
        buf h3 1%positive = [10%Z] ∧ buf h3 2%positive = [20%Z].
Proof.
  edestruct (use_params_scope demo_shim demo_params demo_work demo_heap {[1%positive]})
    as [Hret _].
  - by vm_compute.
  - apply Forall_forall. apply (bool_decide_unpack _). by vm_compute.
  - apply (bool_decide_unpack _). by vm_compute.
  - intros h' l _ Hl. simpl. apply lookup_insert_ne. set_solver.
  - vm_compute. reflexivity.
  - edestruct Hret as (h3 & Hrun & Hrest); [reflexivity|].
    exists h3. split; [exact Hrun|]. split.
    + by rewrite (Hrest "w" 1%positive).
    + by rewrite (Hrest "b" 2%positive).
Defined.

(** The claim of C1 fails on the failure path: the work raises inside the
    scope, the exception leaves the scope, and parameter ["w"] still holds
    the substituted value, not the one it had before. *)
Lemma use_params_failure_not_restored :
  has_matching_key (key_prefix demo_shim) demo_params = true ∧
  let r := with_block (use_params demo_shim demo_params)
             (λ h, (h, Raise (Failure "work"))) demo_heap in
  r.2 = Raise (Failure "work") ∧
  buf demo_heap 1%positive = [10%Z] ∧
  buf r.1 1%positive = [30%Z] ∧
  buf r.1 1%positive ≠ buf demo_heap 1%positive.
Proof. by vm_compute. Qed.

(** ** The optimizer adapter *)

Lemma select_optimizer_adam (sgd : Optimizer) :
  adam_family sgd = true →
  select_optimizer sgd = Ok (adam_cls sgd, adam_args sgd).
Proof.
  unfold adam_family, select_optimizer, adam_cls. intros ->.
  by destruct (L2_is_weight_decay sgd).
Qed.

(** Off the Adam path the class is named [thinc.optim.SGD], and [thinc] is
    not a name of the module. *)
Lemma select_optimizer_sgd (sgd : Optimizer) :
  adam_family sgd = false →
  select_optimizer sgd = Raise (NameError "thinc").
Proof. unfold adam_family, select_optimizer. by intros ->. Qed.

Lemma adam_args_lookup (sgd : Optimizer) :
  adam_args sgd !! "lr" = Some (AFloat (learn_rate sgd)) ∧
  adam_args sgd !! "weight_decay" = Some (AFloat (L2 sgd)) ∧
  adam_args sgd !! "betas" = Some (APair (b1 sgd) (b2 sgd)) ∧
  adam_args sgd !! "eps" = Some (AFloat (eps sgd)) ∧
  adam_args sgd !! "momentum" = None.
Proof. unfold adam_args. split_and!; by simplify_map_eq. Qed.

(** C8.  With [b1 = 0.9], [b2 = 0.999], [eps = 1e-8], [L2 = 0.01] and
    [L2_is_weight_decay] set, the adapter selects [AdamW] with betas
    [(0.9, 0.999)], eps [1e-8] and weight decay [0.01]; with the flag unset
    and both moment coefficients nonzero it selects plain [Adam] with the
    optimizer's betas and eps.  The selection does not depend on the foreign
    framework.  A shim without an optimizer hands the selected class and
    arguments to the constructor: when the constructor accepts them, the
    object it makes becomes the shim's optimizer; when it refuses them, its
    exception leaves the call and the shim stays without an optimizer. *)
Theorem adam_selection (model_parameters : torch_model → list loc)
    (optim_init : optim_cls → list loc → gmap string argval → outcome unit)
    (sgd : Optimizer) (self : shim) (n : nat) :
  let get := _get_pytorch_optimizer model_parameters optim_init in
  let ps := model_parameters (_model self) in
  (b1 sgd = 0.9%float → b2 sgd = 0.999%float → eps sgd = 1e-8%float →
   L2 sgd = 0.01%float → L2_is_weight_decay sgd = true →
   ∃ args,
     select_optimizer sgd = Ok (AdamW, args) ∧
     args !! "betas" = Some (APair 0.9%float 0.999%float) ∧
     args !! "eps" = Some (AFloat 1e-8%float) ∧
     args !! "weight_decay" = Some (AFloat 0.01%float) ∧
     args !! "lr" = Some (AFloat (learn_rate sgd)) ∧
     args !! "momentum" = None ∧
     (_optimizer self = None → optim_init AdamW ps args = Ok tt →
      get self sgd n =
        (set_optimizer self (Some (construct AdamW ps args n)), S n,
         Ok (construct AdamW ps args n))) ∧
     (_optimizer self = None → ∀ e, optim_init AdamW ps args = Raise e →
      get self sgd n = (self, n, Raise e))) ∧
  (nonzero (b1 sgd) = true → nonzero (b2 sgd) = true →
   L2_is_weight_decay sgd = false →
   ∃ args,
     select_optimizer sgd = Ok (Adam, args) ∧
     args !! "betas" = Some (APair (b1 sgd) (b2 sgd)) ∧
     args !! "eps" = Some (AFloat (eps sgd)) ∧
     args !! "weight_decay" = Some (AFloat (L2 sgd)) ∧
     args !! "lr" = Some (AFloat (learn_rate sgd)) ∧
     args !! "momentum" = None ∧
     (_optimizer self = None → optim_init Adam ps args = Ok tt →
      get self sgd n =
        (set_optimizer self (Some (construct Adam ps args n)), S n,
         Ok (construct Adam ps args n))) ∧
     (_optimizer self = None → ∀ e, optim_init Adam ps args = Raise e →
      get self sgd n = (self, n, Raise e))).
Proof.
  intros get ps. split.
  - intros H1 H2 He HL Hwd.
    assert (Hsel : select_optimizer sgd = Ok (AdamW, adam_args sgd)).
    { rewrite select_optimizer_adam; [by unfold adam_cls; rewrite Hwd|].
      unfold adam_family. by rewrite H1, H2. }
    exists (adam_args sgd).
    destruct (adam_args_lookup sgd) as (Hlr & Hw & Hb & Hep & Hm).
    rewrite H1, H2 in Hb. rewrite He in Hep. rewrite HL in Hw.
    split_and!; try done.
    + intros Hnone Hacc. unfold get, _get_pytorch_optimizer.
      rewrite Hsel, Hnone. fold ps. by rewrite Hacc.
    + intros Hnone e Hrej. unfold get, _get_pytorch_optimizer.
      rewrite Hsel, Hnone. fold ps. by rewrite Hrej.
  - intros H1 H2 Hwd.
    assert (Hsel : select_optimizer sgd = Ok (Adam, adam_args sgd)).
    { rewrite select_optimizer_adam; [by unfold adam_cls; rewrite Hwd|].
      unfold adam_family. by rewrite H1, H2. }
    exists (adam_args sgd).
    destruct (adam_args_lookup sgd) as (Hlr & Hw & Hb & Hep & Hm).
    split_and!; try done.
    + intros Hnone Hacc. unfold get, _get_pytorch_optimizer.
      rewrite Hsel, Hnone. fold ps. by rewrite Hacc.
    + intros Hnone e Hrej. unfold get, _get_pytorch_optimizer.
      rewrite Hsel, Hnone. fold ps. by rewrite Hrej.
Qed.

(** Instances: the two selections; with a constructor that refuses a
    learning rate below zero, the shim constructs [AdamW] for the rate
    [0.001] and stays without an optimizer for the rate [-1]. *)
Lemma adam_selection_witness :
  (∃ args, select_optimizer (adam_sgd 0.001%float true) = Ok (AdamW, args) ∧
           args !! "betas" = Some (APair 0.9%float 0.999%float) ∧
           args !! "eps" = Some (AFloat 1e-8%float) ∧
           args !! "weight_decay" = Some (AFloat 0.01%float) ∧
           _get_pytorch_optimizer demo_parameters demo_init demo_shim
             (adam_sgd 0.001%float true) 0 =
           (set_optimizer demo_shim
              (Some (construct AdamW (demo_parameters demo_model) args 0)), 1,
            Ok (construct AdamW (demo_parameters demo_model) args 0))) ∧
  (∃ args, select_optimizer (adam_sgd (-1)%float true) = Ok (AdamW, args) ∧
           _get_pytorch_optimizer demo_parameters demo_init demo_shim
             (adam_sgd (-1)%float true) 0 = (demo_shim, 0, Raise ValueError)) ∧
  (∃ args, select_optimizer (adam_sgd 0.001%float false) = Ok (Adam, args) ∧
           args !! "betas" = Some (APair 0.9%float 0.999%float) ∧
           args !! "eps" = Some (AFloat 1e-8%float)).
Proof.
  split; [|split].
  - destruct (adam_selection demo_parameters demo_init (adam_sgd 0.001%float true)
      demo_shim 0) as [H _].
    destruct H as (args & Hs & Hb & He & Hw & Hlr & _ & Hacc & _); [reflexivity..|].
    exists args. split_and!; try done.
    apply Hacc; [reflexivity|].
    injection Hs as <-. by vm_compute.
  - destruct (adam_selection demo_parameters demo_init (adam_sgd (-1)%float true)
      demo_shim 0) as [H _].
    destruct H as (args & Hs & _ & _ & _ & _ & _ & _ & Hrej); [reflexivity..|].
    exists args. split; [done|].
    apply Hrej; [reflexivity|].
    injection Hs as <-. by vm_compute.
  - destruct (adam_selection demo_parameters demo_init (adam_sgd 0.001%float false)
      demo_shim 0) as [_ H].
    destruct H as (args & Hs & Hb & He & _); [reflexivity..|]. by exists args.
Defined.

(** ** [finish_update]: the lazily constructed optimizer *)

Lemma set_constructed_same (w : world) : set_constructed w (constructed w) = w.
Proof. by destruct w. Qed.

Section training_props.
Variable model_parameters : torch_model → list loc.
Variable optim_init : optim_cls → list loc → gmap string argval → outcome unit.
Variable ops_update_averages : data → data → Z → data.
Variable clip_grad_norm_ : list loc → float → gmap loc loc → heap → heap * outcome unit.
Variable opt_step : torch_optimizer → gmap loc loc → heap → heap * outcome (gmap loc data).
Variable opt_zero_grad : list loc → gmap loc loc → heap → heap * gmap loc loc.

Local Abbreviation get_optimizer' :=
  (_get_pytorch_optimizer model_parameters optim_init).
Local Abbreviation finish_update' :=
  (finish_update model_parameters optim_init ops_update_averages clip_grad_norm_
     opt_step opt_zero_grad).
Local Abbreviation finish_updates' :=
  (finish_updates model_parameters optim_init ops_update_averages clip_grad_norm_
     opt_step opt_zero_grad).

(** When the class cannot be named, the call fails before it touches
    anything. *)
Lemma finish_update_sgd_raises (self : shim) (sgd : Optimizer) (w : world) :
  adam_family sgd = false →
  finish_update' self sgd w = (self, sgd, w, Raise (NameError "thinc")).
Proof.
  intros Hf. unfold finish_update, _get_pytorch_optimizer.
  rewrite select_optimizer_sgd by done. by rewrite set_constructed_same.
Qed.

(** Whatever the foreign calls do after the optimizer was obtained, the
    shim keeps that optimizer object and its hyperparameters, and nothing
    else is constructed. *)
Lemma finish_update_keeps (self : shim) (sgd : Optimizer) (w : world)
    (self1 : shim) (n1 : nat) (o : torch_optimizer) :
  get_optimizer' self sgd (constructed w) = (self1, n1, Ok o) →
  ∃ self' sgd' w' r o',
    finish_update' self sgd w = (self', sgd', w', r) ∧
    constructed w' = n1 ∧ _model self' = _model self1 ∧
    _optimizer self' = Some o' ∧ same_config o o'.
Proof.
  intros Hget.
  assert (Hself1 : _optimizer self1 = Some o).
  { unfold _get_pytorch_optimizer in Hget.
    destruct (select_optimizer sgd) as [[cls args]|e]; [|done].
    destruct (_optimizer self); [by injection Hget as <- <- <-|].
    destruct (optim_init _ _ _); [|done]. by injection Hget as <- <- <-. }
  unfold finish_update. rewrite Hget.
  destruct (match grad_clip sgd with
            | Some c => if truthy_clip (Some c)
                        then clip_grad_norm_ (model_parameters (_model self1)) c
                               (grad (set_constructed w n1)) (bufs (set_constructed w n1))
                        else (bufs (set_constructed w n1), Ok tt)
            | None => (bufs (set_constructed w n1), Ok tt)
            end) as [h [[]|e]].
  - destruct (opt_step o (grad (set_constructed w n1)) h) as [h' [st|e]].
    + destruct (opt_zero_grad _ _ h') as [h'' g].
      destruct (_update_pytorch_averages _ _ _ _ h'') as [h3 sgd'].
      eexists _, _, _, _, _. split; [done|]. by split_and!.
    + eexists _, _, _, _, _. split; [done|]. by split_and!.
  - eexists _, _, _, _, _. split; [done|]. by split_and!.
Qed.

(** A first call on the Adam path whose arguments the constructor refuses
    fails with the constructor's exception and leaves the shim without an
    optimizer; nothing else is touched. *)
Lemma finish_update_rejected (self : shim) (sgd : Optimizer) (w : world) (e : exn) :
  adam_family sgd = true → _optimizer self = None →
  optim_init (adam_cls sgd) (model_parameters (_model self)) (adam_args sgd) = Raise e →
  finish_update' self sgd w = (self, sgd, w, Raise e).
Proof.
  intros Hf Hnone Hrej. unfold finish_update, _get_pytorch_optimizer.
  rewrite select_optimizer_adam, Hnone, Hrej by done. by rewrite set_constructed_same.
Qed.

(** A first call on the Adam path whose arguments the constructor accepts
    constructs the optimizer, bound to the parameters of the model. *)
Lemma finish_update_first (self : shim) (sgd : Optimizer) (w : world) :
  adam_family sgd = true → _optimizer self = None →
  optim_init (adam_cls sgd) (model_parameters (_model self)) (adam_args sgd) = Ok tt →
  ∃ self' sgd' w' r o,
    finish_update' self sgd w = (self', sgd', w', r) ∧
    constructed w' = S (constructed w) ∧ _model self' = _model self ∧
    _optimizer self' = Some o ∧
    opt_id o = constructed w ∧ opt_cls o = adam_cls sgd ∧
    opt_params o = model_parameters (_model self) ∧
    param_groups o = [adam_args sgd].
Proof.
  intros Hf Hnone Hacc.
  destruct (finish_update_keeps self sgd w
    (set_optimizer self (Some (construct (adam_cls sgd) (model_parameters (_model self))
       (adam_args sgd) (constructed w))))
    (S (constructed w))
    (construct (adam_cls sgd) (model_parameters (_model self)) (adam_args sgd) (constructed w)))
    as (self' & sgd' & w' & r & o' & Hrun & Hn & Hm & Ho & Hid & Hcls & Hps & Hg).
  { unfold _get_pytorch_optimizer. by rewrite select_optimizer_adam, Hnone, Hacc. }
  exists self', sgd', w', r, o'. by split_and!.
Qed.

(** A later call on the Adam path constructs nothing: it updates every
    parameter group of the optimizer that is there. *)
Lemma finish_update_next (self : shim) (sgd : Optimizer) (w : world)
    (o : torch_optimizer) :
  adam_family sgd = true → _optimizer self = Some o →
  ∃ self' sgd' w' r o',
    finish_update' self sgd w = (self', sgd', w', r) ∧
    constructed w' = constructed w ∧ _model self' = _model self ∧
    _optimizer self' = Some o' ∧
    opt_id o' = opt_id o ∧ opt_cls o' = opt_cls o ∧
    opt_params o' = opt_params o ∧
    param_groups o' = (λ g, adam_args sgd ∪ g) <$> param_groups o.
Proof.
  intros Hf Hsome.
  destruct (finish_update_keeps self sgd w
    (set_optimizer self (Some (update_groups o (adam_args sgd))))
    (constructed w) (update_groups o (adam_args sgd)))
    as (self' & sgd' & w' & r & o' & Hrun & Hn & Hm & Ho & Hid & Hcls & Hps & Hg).
  { unfold _get_pytorch_optimizer. by rewrite select_optimizer_adam, Hsome. }
  exists self', sgd', w', r, o'. by split_and!.
Qed.
(** The parameter groups after a run of calls on the Adam path. *)
Lemma finish_updates_from_some (calls : list Optimizer) :
  ∀ (self : shim) (w : world) (o : torch_optimizer),
  Forall (λ c, adam_family c = true) calls → _optimizer self = Some o →
  ∃ self' w' rs o',
    finish_updates' self calls w = (self', w', rs) ∧
    constructed w' = constructed w ∧ _model self' = _model self ∧
    _optimizer self' = Some o' ∧
    opt_id o' = opt_id o ∧ opt_cls o' = opt_cls o ∧
    opt_params o' = opt_params o ∧
    param_groups o' = update_all (param_groups o) calls.
Proof.
  induction calls as [|c rest IH]; intros self w o Hall Ho.
  - exists self, w, [], o. by split_and!.
  - apply Forall_cons in Hall as [Hc Hall].
    destruct (finish_update_next self c w o Hc Ho)
      as (self1 & sgd1 & w1 & r & o1 & Hrun & Hn & Hm & Ho1 & Hid & Hcls & Hps & Hg).
    destruct (IH self1 w1 o1 Hall Ho1)
      as (self2 & w2 & rs & o2 & Hrun2 & Hn2 & Hm2 & Ho2 & Hid2 & Hcls2 & Hps2 & Hg2).
    exists self2, w2, (r :: rs), o2. cbn [finish_updates]. rewrite Hrun, Hrun2.
    split_and!; try congruence. cbn [update_all fold_left]. by rewrite Hg2, Hg.
Qed.

(** The lazy singleton, where the class can be named and the constructor
    accepts the arguments of the first call: over any run of calls on the
    Adam path, one optimizer is constructed, by the first call and bound to
    the model's parameters; the later calls update its groups. *)
Lemma finish_updates_adam_singleton (first : Optimizer) (rest : list Optimizer)
    (self : shim) (w : world) :
  Forall (λ c, adam_family c = true) (first :: rest) → _optimizer self = None →
  optim_init (adam_cls first) (model_parameters (_model self)) (adam_args first) = Ok tt →
  ∃ self' w' rs o,
    finish_updates' self (first :: rest) w = (self', w', rs) ∧
    constructed w' = S (constructed w) ∧
    _optimizer self' = Some o ∧
    opt_id o = constructed w ∧ opt_cls o = adam_cls first ∧
    opt_params o = model_parameters (_model self) ∧
    param_groups o = update_all [adam_args first] rest.
Proof.
  intros Hall Hnone Hacc. apply Forall_cons in Hall as [Hc Hall].
  destruct (finish_update_first self first w Hc Hnone Hacc)
    as (self1 & sgd1 & w1 & r & o1 & Hrun & Hn & Hm & Ho1 & Hid & Hcls & Hps & Hg).
  destruct (finish_updates_from_some rest self1 w1 o1 Hall Ho1)
    as (self2 & w2 & rs & o2 & Hrun2 & Hn2 & Hm2 & Ho2 & Hid2 & Hcls2 & Hps2 & Hg2).
  exists self2, w2, (r :: rs), o2. cbn [finish_updates]. rewrite Hrun, Hrun2.
  split_and!; try congruence.
Qed.
End training_props.

(** The groups hold the hyperparameters of the last call. *)
Lemma update_all_lookup (rest : list Optimizer) :
  ∀ (prev final : Optimizer) (gs : list (gmap string argval)),
  Forall (λ g, g !! "lr" = Some (AFloat (learn_rate prev))) gs →
  last (prev :: rest) = Some final →
  Forall (λ g, g !! "lr" = Some (AFloat (learn_rate final))) (update_all gs rest).
Proof.
  induction rest as [|c rest IH]; intros prev final gs Hgs Hlast.
  - simpl in Hlast. by injection Hlast as <-.
  - cbn [update_all fold_left]. rewrite last_cons_cons in Hlast.
    apply (IH c final); [|done]. apply Forall_fmap.
    eapply Forall_impl; [exact Hgs|].
    intros g _. simpl. apply lookup_union_Some_l. apply adam_args_lookup.
Qed.

(** C2, on the code.  For an optimizer with [b1 = 0.9], [b2 = 0] and
    [L2 = 0] the code does not select and construct an SGD optimizer:
    evaluating the class name raises [NameError] (the module binds [torch],
    not [thinc]) before the momentum is read and before anything is
    constructed; [finish_update] fails with it and leaves the shim, the
    optimizer count and the buffers as they were. *)
Theorem momentum_sgd_selection_raises
    (model_parameters : torch_model → list loc)
    (optim_init : optim_cls → list loc → gmap string argval → outcome unit)
    (ops_update_averages : data → data → Z → data)
    (clip_grad_norm_ : list loc → float → gmap loc loc → heap → heap * outcome unit)
    (opt_step : torch_optimizer → gmap loc loc → heap → heap * outcome (gmap loc data))
    (opt_zero_grad : list loc → gmap loc loc → heap → heap * gmap loc loc)
    (lr eps : float) (wd : bool) (clip : option float)
    (av : option (gmap pykey loc)) (nr : gmap pykey Z) (self : shim) (w : world) :
  let sgd := momentum_sgd lr eps wd clip av nr in
  b1 sgd = 0.9%float ∧ b2 sgd = 0%float ∧ L2 sgd = 0%float ∧
  eval_optim_name "thinc" "SGD" = Raise (NameError "thinc") ∧
  eval_optim_name "torch" "SGD" = Ok SGD ∧
  select_optimizer sgd = Raise (NameError "thinc") ∧
  _get_pytorch_optimizer model_parameters optim_init self sgd (constructed w) =
    (self, constructed w, Raise (NameError "thinc")) ∧
  finish_update model_parameters optim_init ops_update_averages clip_grad_norm_
    opt_step opt_zero_grad self sgd w =
    (self, sgd, w, Raise (NameError "thinc")).
Proof.
  intros sgd. split_and!; try reflexivity.
  by apply finish_update_sgd_raises.
Qed.

(** C5, on the code.  Two calls in a row with different learning rates, by
    an optimizer set up for momentum SGD, on a shim that has no optimizer
    yet: both calls fail with [NameError], the shim still has no optimizer
    and none was constructed. *)
Theorem lazy_singleton_off_adam
    (model_parameters : torch_model → list loc)
    (optim_init : optim_cls → list loc → gmap string argval → outcome unit)
    (ops_update_averages : data → data → Z → data)
    (clip_grad_norm_ : list loc → float → gmap loc loc → heap → heap * outcome unit)
    (opt_step : torch_optimizer → gmap loc loc → heap → heap * outcome (gmap loc data))
    (opt_zero_grad : list loc → gmap loc loc → heap → heap * gmap loc loc)
    (w : world) :
  let calls := [momentum_sgd 0.001%float 1e-8%float false None None ∅;
                momentum_sgd 0.01%float 1e-8%float false None None ∅] in
  let '(self', w', rs) :=
    finish_updates model_parameters optim_init ops_update_averages clip_grad_norm_
      opt_step opt_zero_grad demo_shim calls w in
  rs = [Raise (NameError "thinc"); Raise (NameError "thinc")] ∧
  _optimizer self' = None ∧
  constructed w' = constructed w.
Proof.
  intros calls. unfold calls. cbn [finish_updates].
  rewrite !finish_update_sgd_raises by reflexivity. done.
Qed.

(** Where the class can be named and the constructor accepts the first
    call's arguments, the singleton holds: two calls on the Adam path with
    different learning rates construct one optimizer, whose group holds the
    learning rate of the second call. *)
Lemma lazy_singleton_two_adam_calls
    (model_parameters : torch_model → list loc)
    (optim_init : optim_cls → list loc → gmap string argval → outcome unit)
    (ops_update_averages : data → data → Z → data)
    (clip_grad_norm_ : list loc → float → gmap loc loc → heap → heap * outcome unit)
    (opt_step : torch_optimizer → gmap loc loc → heap → heap * outcome (gmap loc data))
    (opt_zero_grad : list loc → gmap loc loc → heap → heap * gmap loc loc)
    (c1 c2 : Optimizer) (self : shim) (w : world) :
  adam_family c1 = true → adam_family c2 = true → _optimizer self = None →
  optim_init (adam_cls c1) (model_parameters (_model self)) (adam_args c1) = Ok tt →
  ∃ self' w' rs o g,
    finish_updates model_parameters optim_init ops_update_averages clip_grad_norm_
      opt_step opt_zero_grad self [c1; c2] w = (self', w', rs) ∧
    constructed w' = S (constructed w) ∧
    _optimizer self' = Some o ∧ opt_id o = constructed w ∧
    opt_params o = model_parameters (_model self) ∧
    param_groups o = [g] ∧ g !! "lr" = Some (AFloat (learn_rate c2)).
Proof.
  intros H1 H2 Hnone Hacc.
  destruct (finish_updates_adam_singleton model_parameters optim_init
              ops_update_averages clip_grad_norm_ opt_step opt_zero_grad c1 [c2] self w)
    as (self' & w' & rs & o & Hrun & Hn & Ho & Hid & Hcls & Hps & Hg);
    [by repeat constructor | done | done |].
  pose proof (update_all_lookup [c2] c1 c2 [adam_args c1]) as Hl.
  rewrite <- Hg in Hl.
  destruct (param_groups o) as [|g [|g' gs]] eqn:Hgs; [done| |done].
  exists self', w', rs, o, g. split_and!; try done.
  assert (Hfirst : Forall (λ g : gmap string argval,
            g !! "lr" = Some (AFloat (learn_rate c1))) [adam_args c1]).
  { constructor; [apply adam_args_lookup | constructor]. }
  exact (Forall_inv (Hl Hfirst eq_refl)).
Qed.

(** ** [begin_update] and [backprop] *)

Lemma pyval_nested_ind (P : pyval → Prop) :
  P PNone → (∀ z, P (PInt z)) → (∀ s, P (PStr s)) → (∀ t, P (PTensor t)) →
  (∀ l, Forall P l → P (PTuple l)) →
  (∀ l, Forall P l → P (PList l)) →
  (∀ l, Forall (λ kv, P kv.2) l → P (PDict l)) →
  ∀ x, P x.
Proof.
  intros HN HI HS HT HTu HL HD. fix IH 1. intros [|z|s|t|l|l|l].
  - exact HN.
  - apply HI.
  - apply HS.
  - apply HT.
  - apply HTu. induction l as [|x l IHl]; constructor; [apply IH | exact IHl].
  - apply HL. induction l as [|x l IHl]; constructor; [apply IH | exact IHl].
  - apply HD. induction l as [|[k x] l IHl]; constructor; [apply IH | exact IHl].
Qed.

(** The walk with the source's two lambdas is the replacement of every
    tensor by its [grad] attribute. *)
Lemma convert_recursive_grads (g : gmap loc loc) (x : pyval) :
  convert_recursive hasattr_grad (getattr_grad g) x = grads_of g x.
Proof.
  induction x as [|z|s|t|l IH|l IH|l IH] using pyval_nested_ind; try done.
  - simpl. f_equal. induction IH as [|x l Hx _ IHl]; [done|]. simpl. by rewrite Hx, IHl.
  - simpl. f_equal. induction IH as [|x l Hx _ IHl]; [done|]. simpl. by rewrite Hx, IHl.
  - simpl. f_equal. induction IH as [|[k x] l Hx _ IHl]; [done|].
    simpl in *. by rewrite Hx, IHl.
Qed.

Lemma convert_payload_grads (g : gmap loc loc) (p : ArgsKwargs) :
  convert_payload hasattr_grad (getattr_grad g) p = grads_of_payload g p.
Proof.
  unfold convert_payload, grads_of_payload. f_equal.
  - apply map_ext. intros x. apply convert_recursive_grads.
  - apply map_ext. intros [k x]. simpl. by rewrite convert_recursive_grads.
Qed.

(** C3, on the code.  When the foreign model returns one bare tensor,
    [begin_update] hands that bare tensor back with the closure: it is not
    made a one-element tuple, although the docstring says so. *)
Theorem begin_update_keeps_bare_output
    (autograd_backward : ArgsKwargs → world → world * outcome unit)
    (t : loc) (self : shim) (inputs : ArgsKwargs) (w : world) :
  begin_update (bare_forward t) autograd_backward self inputs w =
    (set_model self (set_training (_model self) true), w,
     Ok (PTensor t, backprop autograd_backward inputs)) ∧
  PTensor t ≠ PTuple [PTensor t].
Proof. done. Qed.

(** Whatever the model returns is returned untouched. *)
Lemma begin_update_output
    (forward : torch_model → ArgsKwargs → world → world * outcome pyval)
    (autograd_backward : ArgsKwargs → world → world * outcome unit)
    (self : shim) (inputs : ArgsKwargs) (w w1 : world) (output : pyval) :
  forward (set_training (_model self) true) inputs w = (w1, Ok output) →
  begin_update forward autograd_backward self inputs w =
    (set_model self (set_training (_model self) true), w1,
     Ok (output, backprop autograd_backward inputs)).
Proof. intros H. unfold begin_update. simpl. by rewrite H. Qed.

(** C4, as the code has it.  After the backward pass the closure returns the
    inputs payload in which every tensor, whether it has an accumulated
    gradient or not, is replaced by its [grad] attribute: the gradient when
    there is one, [None] when there is none.  Values that are not tensors
    are kept.  A failure of the backward pass is passed on. *)
Theorem backprop_replaces_tensors
    (autograd_backward : ArgsKwargs → world → world * outcome unit)
    (inputs grads : ArgsKwargs) (w : world) :
  match autograd_backward grads w with
  | (w1, Ok _) =>
      backprop autograd_backward inputs grads w =
        (w1, Ok (grads_of_payload (grad w1) inputs))
  | (w1, Raise e) => backprop autograd_backward inputs grads w = (w1, Raise e)
  end ∧
  (∀ g t d, g !! t = Some d → grads_of g (PTensor t) = PTensor d) ∧
  (∀ g t, g !! t = None → grads_of g (PTensor t) = PNone) ∧
  (∀ g x, hasattr_grad x = false →
     (∀ l, x ≠ PTuple l) → (∀ l, x ≠ PList l) → (∀ l, x ≠ PDict l) →
     grads_of g x = x).
Proof.
  split_and!.
  - unfold backprop. destruct (autograd_backward grads w) as [w1 [[]|e]]; [|done].
    by rewrite convert_payload_grads.
  - intros g t d H. simpl. by rewrite H.
  - intros g t H. simpl. by rewrite H.
  - intros g x Hx HT HL HD. destruct x; try done.
    + by destruct (HT items).
    + by destruct (HL items).
    + by destruct (HD items).
Qed.

(** The claim of C4 fails: tensor 1 has no accumulated gradient after the
    backward pass, and the closure returns [None] in its place, at both of
    its positions, instead of leaving it as it is. *)
Lemma backprop_replaces_by_none :
  let r := backprop demo_backward demo_inputs
             {| args := [PTensor 3%positive]; kwargs := [] |} demo_world in
  grad r.1 !! 1%positive = None ∧
  r.2 = Ok {| args := [PNone; PTensor 9%positive; PInt 5];
              kwargs := [("mask", PNone)] |} ∧
  r.2 ≠ Ok {| args := [PTensor 1%positive; PTensor 9%positive; PInt 5];
              kwargs := [("mask", PTensor 1%positive)] |}.
Proof. by vm_compute. Qed.

(** ** [_update_pytorch_averages] *)

Lemma append_inv_head (pre a b : string) : pre ++ a = pre ++ b → a = b.
Proof. induction pre as [|c pre IH]; simpl; [done|]. intros [= H]. by apply IH. Qed.

Lemma nr_get_insert (nr : gmap pykey Z) (k : pykey) (n : Z) :
  nr_get (<[k := n]> nr) k = n.
Proof. unfold nr_get. by rewrite lookup_insert_eq. Qed.

Section averaging_props.
Variable ops_update_averages : data → data → Z → data.
Variable prefix : string.
Variable init_steps : Z.

Local Abbreviation step := (averages_step ops_update_averages prefix init_steps).
Local Abbreviation loop := (averages_loop ops_update_averages prefix init_steps).
Local Abbreviation key_of := (λ name : string, KStr (prefix ++ name)).

(** The turn for a key that has no average yet. *)
Lemma averages_step_new (h : heap) (av : gmap pykey loc) (nr : gmap pykey Z)
    (name : string) (l : loc) :
  av !! key_of name = None →
  step (h, av, nr) (name, l) =
    (<[fresh (dom h) := buf h l]> h,
     <[key_of name := fresh (dom h)]> av,
     <[key_of name := init_steps]> nr).
Proof.
  intros Hav. unfold averages_step. rewrite Hav. unfold clone, alloc, torch2xp.
  by rewrite insert_insert_eq.
Qed.

(** The turn for a key that has one. *)
Lemma averages_step_old (h : heap) (av : gmap pykey loc) (nr : gmap pykey Z)
    (name : string) (l ema : loc) :
  av !! key_of name = Some ema →
  step (h, av, nr) (name, l) =
    (<[ema := ops_update_averages (buf h ema) (buf h l) (nr_get nr (key_of name) + 1)]> h,
     av,
     <[key_of name := (nr_get nr (key_of name) + 1)%Z]> nr).
Proof.
  intros Hav. unfold averages_step. rewrite Hav. unfold torch2xp.
  by rewrite nr_get_insert.
Qed.

(** What one turn leaves alone. *)
Lemma averages_step_frame (h h1 : heap) (av av1 : gmap pykey loc)
    (nr nr1 : gmap pykey Z) (name : string) (l : loc) :
  step (h, av, nr) (name, l) = (h1, av1, nr1) →
  dom h ⊆ dom h1 ∧
  (∀ k, k ≠ key_of name → av1 !! k = av !! k ∧ nr1 !! k = nr !! k) ∧
  (∀ k x, av1 !! k = Some x → av !! k = Some x ∨ x ∉ dom h) ∧
  (∀ x, x ∈ dom h → av !! key_of name ≠ Some x → h1 !! x = h !! x).
Proof.
  intros Hstep. destruct (av !! key_of name) as [ema|] eqn:Hav.
  - rewrite (averages_step_old _ _ _ _ _ ema) in Hstep by done.
    injection Hstep as <- <- <-. split_and!.
    + rewrite dom_insert_L. set_solver.
    + intros k Hk. split; [done|]. by rewrite lookup_insert_ne.
    + intros k x Hx. by left.
    + intros x _ Hx. rewrite lookup_insert_ne; [done|]. congruence.
  - rewrite averages_step_new in Hstep by done.
    injection Hstep as <- <- <-. split_and!.
    + rewrite dom_insert_L. set_solver.
    + intros k Hk. by rewrite !lookup_insert_ne.
    + intros k x Hx. destruct (decide (k = key_of name)) as [->|Hne].
      * rewrite lookup_insert_eq in Hx. injection Hx as <-. right. apply is_fresh.
      * rewrite lookup_insert_ne in Hx by done. by left.
    + intros x Hx _. rewrite lookup_insert_ne; [done|].
      intros <-. by apply (is_fresh (dom h)).
Qed.

(** One turn keeps the averages well formed. *)
Lemma averages_step_wf (h h1 : heap) (av av1 : gmap pykey loc)
    (nr nr1 : gmap pykey Z) (name : string) (l : loc) (M : list loc) :
  step (h, av, nr) (name, l) = (h1, av1, nr1) →
  avg_wf h av M → avg_wf h1 av1 M.
Proof.
  intros Hstep (Hal & Hinj & Hsep & HM).
  destruct (averages_step_frame _ _ _ _ _ _ _ _ Hstep) as (Hdom & _ & Hav1 & _).
  assert (Hal1 : ∀ k x, av1 !! k = Some x → x ∈ dom h1).
  { intros k x Hx. destruct (av !! key_of name) as [ema|] eqn:Hav.
    - rewrite (averages_step_old _ _ _ _ _ ema) in Hstep by done.
      injection Hstep as <- <- <-. apply Hdom. by eapply Hal.
    - rewrite averages_step_new in Hstep by done.
      injection Hstep as <- <- <-.
      destruct (decide (k = key_of name)) as [->|Hne].
      + rewrite lookup_insert_eq in Hx. injection Hx as <-.
        rewrite dom_insert_L. set_solver.
      + rewrite lookup_insert_ne in Hx by done. apply Hdom. by eapply Hal. }
  split_and!; [done | | |].
  - intros k1 k2 x H1 H2. destruct (av !! key_of name) as [ema|] eqn:Hav.
    + rewrite (averages_step_old _ _ _ _ _ ema) in Hstep by done.
      injection Hstep as <- <- <-. by eapply Hinj.
    + rewrite averages_step_new in Hstep by done.
      injection Hstep as <- <- <-.
      destruct (decide (k1 = key_of name)) as [->|Hne1];
        destruct (decide (k2 = key_of name)) as [->|Hne2]; [done | | |].
      * rewrite lookup_insert_eq in H1. injection H1 as <-.
        rewrite lookup_insert_ne in H2 by done.
        destruct (is_fresh (dom h)). by eapply Hal.
      * rewrite lookup_insert_eq in H2. injection H2 as <-.
        rewrite lookup_insert_ne in H1 by done.
        destruct (is_fresh (dom h)). by eapply Hal.
      * rewrite lookup_insert_ne in H1, H2 by done. by eapply Hinj.
  - intros k x Hx Hin. destruct (Hav1 k x Hx) as [Hold|Hnew].
    + by eapply Hsep.
    + by apply Hnew, HM.
  - intros x Hx. by apply Hdom, HM.
Qed.

(** What the loop leaves alone: the keys of other names, and the buffers
    that are not averages of the names it visits. *)
Lemma averages_loop_frame (items : list (string * loc)) :
  ∀ (h h' : heap) (av av' : gmap pykey loc) (nr nr' : gmap pykey Z),
  loop items (h, av, nr) = (h', av', nr') →
  dom h ⊆ dom h' ∧
  (∀ k, (∀ n l, (n, l) ∈ items → k ≠ key_of n) →
        av' !! k = av !! k ∧ nr' !! k = nr !! k) ∧
  (∀ x, x ∈ dom h → (∀ n l, (n, l) ∈ items → av !! key_of n ≠ Some x) →
        h' !! x = h !! x).
Proof.
  induction items as [|[n0 l0] rest IH]; intros h h' av av' nr nr' Hrun.
  - injection Hrun as <- <- <-. by split_and!.
  - unfold averages_loop in Hrun. cbn [fold_left] in Hrun.
    destruct (step (h, av, nr) (n0, l0)) as [[h1 av1] nr1] eqn:Hstep.
    destruct (averages_step_frame _ _ _ _ _ _ _ _ Hstep) as (Hd1 & Hk1 & Ha1 & Hh1).
    destruct (IH _ _ _ _ _ _ Hrun) as (Hd & Hk & Hh).
    split_and!.
    + set_solver.
    + intros k Hne. destruct (Hk k) as [-> ->].
      { intros n l Hin. apply (Hne n l). by right. }
      apply Hk1. apply (Hne n0 l0). by left.
    + intros x Hx Hne. rewrite Hh.
      * apply Hh1; [done|]. apply (Hne n0 l0). by left.
      * by apply Hd1.
      * intros n l Hin Hax. destruct (Ha1 _ _ Hax) as [Hold|Hnew]; [|done].
        eapply Hne; [|exact Hold]. by right.
Qed.

(** The loop, key by key. *)
Lemma averages_loop_spec (M : list loc) (items : list (string * loc)) :
  ∀ (h h' : heap) (av av' : gmap pykey loc) (nr nr' : gmap pykey Z),
  loop items (h, av, nr) = (h', av', nr') →
  NoDup (items.*1) → avg_wf h av M → (∀ n l, (n, l) ∈ items → l ∈ M) →
  ∀ name l, (name, l) ∈ items →
    match av !! key_of name with
    | None =>
        ∃ c, av' !! key_of name = Some c ∧ (c ∉ dom h) ∧
             buf h' c = buf h l ∧ nr' !! key_of name = Some init_steps
    | Some ema =>
        av' !! key_of name = Some ema ∧
        nr' !! key_of name = Some (nr_get nr (key_of name) + 1)%Z ∧
        buf h' ema =
          ops_update_averages (buf h ema) (buf h l) (nr_get nr (key_of name) + 1)
    end.
Proof.
  induction items as [|[n0 l0] rest IH];
    intros h h' av av' nr nr' Hrun Hnd Hwf HM name l Hin.
  - by apply elem_of_nil in Hin.
  - unfold averages_loop in Hrun. cbn [fold_left] in Hrun.
    destruct (step (h, av, nr) (n0, l0)) as [[h1 av1] nr1] eqn:Hstep.
    fold (loop rest (h1, av1, nr1)) in Hrun.
    rewrite fmap_cons in Hnd. apply NoDup_cons in Hnd as [Hn0 Hnd]. simpl in Hn0.
    pose proof (averages_step_wf _ _ _ _ _ _ _ _ M Hstep Hwf) as Hwf1.
    destruct (averages_step_frame _ _ _ _ _ _ _ _ Hstep) as (Hd1 & Hk1 & Ha1 & Hh1).
    destruct (averages_loop_frame rest _ _ _ _ _ _ Hrun) as (Hd & Hk & Hh).
    destruct Hwf as (Hal & Hinj & Hsep & HMd).
    assert (Hkeys : ∀ n l', (n, l') ∈ rest → key_of n0 ≠ key_of n).
    { intros n l' Hn [= Heq]. apply append_inv_head in Heq as ->.
      apply Hn0. apply list_elem_of_fmap. by exists (n, l'). }
    apply elem_of_cons in Hin as [[= -> ->]|Hin].
    + (* the key of this turn: settled now, left alone afterwards *)
      destruct (Hk (key_of n0)) as [-> ->]; [by eauto|].
      destruct (av !! key_of n0) as [ema|] eqn:Hav.
      * rewrite (averages_step_old _ _ _ _ _ ema) in Hstep by done.
        injection Hstep as <- <- <-.
        split_and!; [done | apply lookup_insert_eq |].
        apply buf_lookup. rewrite Hh.
        -- apply lookup_insert_eq.
        -- rewrite dom_insert_L. set_solver.
        -- intros n l' Hn Hax. apply (Hkeys n l' Hn). by eapply Hinj.
      * rewrite averages_step_new in Hstep by done.
        injection Hstep as <- <- <-.
        exists (fresh (dom h)).
        split_and!; [apply lookup_insert_eq | apply is_fresh | | apply lookup_insert_eq].
        apply buf_lookup. rewrite Hh.
        -- apply lookup_insert_eq.
        -- rewrite dom_insert_L. set_solver.
        -- intros n l' Hn Hax.
           rewrite lookup_insert_ne in Hax by (by eapply Hkeys).
           apply (is_fresh (dom h)). by eapply Hal.
    + (* a later key: this turn left it alone *)
      assert (Hne : key_of name ≠ key_of n0).
      { intros Heq. by eapply Hkeys. }
      assert (HMrest : ∀ n l', (n, l') ∈ rest → l' ∈ M).
      { intros n l' Hn. apply (HM n l'). by right. }
      pose proof (IH _ _ _ _ _ _ Hrun Hnd Hwf1 HMrest name l Hin) as Hpost.
      destruct (Hk1 (key_of name) Hne) as [Hav1 Hnr1].
      rewrite Hav1 in Hpost.
      assert (Hl : buf h1 l = buf h l).
      { apply buf_eq, Hh1.
        - apply HMd, (HM name l). by right.
        - intros Hax. eapply Hsep; [exact Hax|]. apply (HM name l). by right. }
      destruct (av !! key_of name) as [ema|] eqn:Hav.
      * destruct Hpost as (Ha & Hn & Hb). unfold nr_get in *. rewrite Hnr1 in Hn, Hb.
        split_and!; [done | done |].
        rewrite Hb, Hl. f_equal. apply buf_eq, Hh1; [by eapply Hal|].
        intros Hax. apply Hne. by eapply Hinj.
      * destruct Hpost as (c & Ha & Hc & Hb & Hn). exists c.
        split_and!; [done | set_solver | congruence | done].
Qed.
End averaging_props.

Lemma averages_loop_wf (rule : data → data → Z → data) (prefix : string)
    (init_steps : Z) (M : list loc) (items : list (string * loc)) :
  ∀ (h h' : heap) (av av' : gmap pykey loc) (nr nr' : gmap pykey Z),
  averages_loop rule prefix init_steps items (h, av, nr) = (h', av', nr') →
  avg_wf h av M → avg_wf h' av' M.
Proof.
  induction items as [|[n0 l0] rest IH]; intros h h' av av' nr nr' Hrun Hwf.
  - by injection Hrun as <- <- <-.
  - unfold averages_loop in Hrun. cbn [fold_left] in Hrun.
    destruct (averages_step rule prefix init_steps (h, av, nr) (n0, l0))
      as [[h1 av1] nr1] eqn:Hstep.
    eapply IH; [exact Hrun|]. by eapply averages_step_wf.
Qed.

(** C7.  Without an averages store the call changes nothing.  With one (its
    averages owning their buffers), the call leaves the parameters as they
    are and, for every named parameter of the model: when its key has no
    average yet, the average becomes a new buffer holding a copy of the
    parameter's value and the counter of the key becomes the starting value
    (1 unless given); when the key has one, it stays the same buffer, the
    counter is incremented, and the buffer is overwritten with the backend's
    moving-average rule applied to the old average, the parameter's value
    and the incremented counter.  The store stays well formed, so that the
    next call finds the key present.  The averages and the counters are
    read from the optimizer that the call leaves, whose other fields are
    those it had. *)
Theorem update_averages_spec (ops_update_averages : data → data → Z → data)
    (self : shim) (sgd : Optimizer) (init_steps : option Z) (h : heap) :
  (averages sgd = None →
     _update_pytorch_averages ops_update_averages self sgd init_steps h = (h, sgd)) ∧
  (∀ av, averages sgd = Some av → avg_wf h av (state_tensors (_model self)) →
     ∃ h' sgd' av' nr',
       _update_pytorch_averages ops_update_averages self sgd init_steps h = (h', sgd') ∧
       averages sgd' = Some av' ∧ nr_update sgd' = nr' ∧
       (learn_rate sgd' = learn_rate sgd ∧ L2 sgd' = L2 sgd ∧ b1 sgd' = b1 sgd ∧
        b2 sgd' = b2 sgd ∧ eps sgd' = eps sgd ∧
        L2_is_weight_decay sgd' = L2_is_weight_decay sgd ∧
        grad_clip sgd' = grad_clip sgd) ∧
       avg_wf h' av' (state_tensors (_model self)) ∧
       ∀ name l, named_parameters (_model self) !! name = Some l →
         let key := KStr (key_prefix self ++ name) in
         buf h' l = buf h l ∧
         match av !! key with
         | None =>
             ∃ c, av' !! key = Some c ∧ (c ∉ dom h) ∧ buf h' c = buf h l ∧
                  nr' !! key = Some (default 1%Z init_steps)
         | Some ema =>
             av' !! key = Some ema ∧
             nr' !! key = Some (nr_get (nr_update sgd) key + 1)%Z ∧
             buf h' ema =
               ops_update_averages (buf h ema) (buf h l)
                 (nr_get (nr_update sgd) key + 1)%Z
         end).
Proof.
  split.
  - intros Hnone. unfold _update_pytorch_averages. by rewrite Hnone.
  - intros av Hav Hwf. unfold _update_pytorch_averages. rewrite Hav.
    set (items := map_to_list (named_parameters (_model self))).
    destruct (averages_loop ops_update_averages (key_prefix self)
                (default 1%Z init_steps) items (h, av, nr_update sgd))
      as [[h' av'] nr'] eqn:Hrun.
    exists h', (set_stores sgd av' nr'), av', nr'.
    split; [done|]. split; [done|]. split; [done|]. split; [done|].
    assert (HM : ∀ n l, (n, l) ∈ items → l ∈ state_tensors (_model self)).
    { intros n l Hin. unfold state_tensors. apply list_elem_of_fmap. by exists (n, l). }
    split; [by eapply averages_loop_wf|].
    intros name l Hname.
    assert (Hin : (name, l) ∈ items) by by apply elem_of_map_to_list.
    split.
    + destruct (averages_loop_frame _ _ _ _ _ _ _ _ _ _ Hrun) as (_ & _ & Hh).
      destruct Hwf as (Hal & Hinj & Hsep & HMd).
      apply buf_eq, Hh.
      * by eapply HMd, HM.
      * intros n l' Hn Hax. eapply Hsep; [exact Hax|]. by eapply HM.
    + apply (averages_loop_spec ops_update_averages (key_prefix self)
               (default 1%Z init_steps) (state_tensors (_model self)) items
               h h' av av' (nr_update sgd) nr' Hrun); try done.
      apply NoDup_fst_map_to_list.
Qed.

(** An instance: parameter ["w"] (value 10) has the average 30 and one
    update counted; parameter ["b"] (value 20) has none.  After the call the
    average of ["w"] is [30 + (10 - 30) / 2 = 20] in the same buffer with
    two updates counted, and ["b"] has a new average holding 20 with one. *)
Lemma update_averages_spec_witness :
  ∃ h' sgd' av',
    _update_pytorch_averages demo_rule demo_shim demo_averaging_sgd None demo_heap =
      (h', sgd') ∧
    averages sgd' = Some av' ∧
    av' !! KStr "pytorch_0_w" = Some 3%positive ∧
    nr_update sgd' !! KStr "pytorch_0_w" = Some 2%Z ∧
    buf h' 3%positive = [20%Z] ∧
    (∃ c, av' !! KStr "pytorch_0_b" = Some c ∧ buf h' c = [20%Z]) ∧
    nr_update sgd' !! KStr "pytorch_0_b" = Some 1%Z.
Proof.
  destruct (update_averages_spec demo_rule demo_shim demo_averaging_sgd None demo_heap)
    as [_ H].
  destruct (H {[ KStr "pytorch_0_w" := 3%positive ]})
    as (h' & sgd' & av' & nr' & Hrun & Hav & Hnr & _ & _ & Hkeys).
  - reflexivity.
  - split_and!.
    + intros k x Hk. apply lookup_singleton_Some in Hk as [_ <-].
      apply (bool_decide_unpack _). by vm_compute.
    + intros k1 k2 x H1 H2. apply lookup_singleton_Some in H1 as [<- _].
      by apply lookup_singleton_Some in H2 as [<- _].
    + intros k x Hk. apply lookup_singleton_Some in Hk as [_ <-].
      apply (bool_decide_unpack _). by vm_compute.
    + apply Forall_forall. apply (bool_decide_unpack _). by vm_compute.
  - exists h', sgd', av'. split; [exact Hrun|]. split; [exact Hav|]. rewrite Hnr.
    destruct (Hkeys "w" 1%positive eq_refl) as [_ Hw].
    destruct (Hkeys "b" 2%positive eq_refl) as [_ Hb].
    change (KStr (key_prefix demo_shim ++ "w")) with (KStr "pytorch_0_w") in Hw.
    change (KStr (key_prefix demo_shim ++ "b")) with (KStr "pytorch_0_b") in Hb.
    rewrite lookup_singleton_eq in Hw. rewrite lookup_singleton_ne in Hb by done.
    destruct Hw as (Hw1 & Hw2 & Hw3). destruct Hb as (c & Hb1 & _ & Hb2 & Hb3).
    split_and!; [done | done | by rewrite Hw3 | by exists c | done].
Defined.

(** ** [to_bytes] and [from_bytes] *)

Lemma alloc_items_spec (items : list (string * data)) :
  ∀ (acc : gmap string loc) (h h' : heap) (sd : gmap string loc),
  alloc_items items acc h = (h', sd) →
  NoDup (items.*1) →
  (∀ l, l ∈ dom h → h' !! l = h !! l) ∧
  (∀ k, k ∉ (items.*1) → sd !! k = acc !! k) ∧
  (∀ k d, (k, d) ∈ items →
     ∃ src, sd !! k = Some src ∧ (src ∉ dom h) ∧ h' !! src = Some d).
Proof.
  induction items as [|[k v] rest IH]; intros acc h h' sd Hrun Hnd.
  - simpl in Hrun. injection Hrun as <- <-. split_and!; [done | done |].
    intros k d Hk. by apply elem_of_nil in Hk.
  - cbn [alloc_items] in Hrun. unfold alloc in Hrun. cbv zeta in Hrun.
    pose proof (is_fresh (dom h)) as Hc. set (c := fresh (dom h)) in *.
    rewrite fmap_cons in Hnd. apply NoDup_cons in Hnd as [Hk Hnd].
    destruct (IH _ _ _ _ Hrun Hnd) as (Hold & Hacc & Hnew).
    assert (Hsub : ∀ l, l ∈ dom h → l ∈ dom (<[c := v]> h)).
    { intros l Hl. rewrite dom_insert_L. set_solver. }
    split_and!.
    + intros l Hl. rewrite Hold by by apply Hsub.
      apply lookup_insert_ne. by intros ->.
    + intros k' Hk'. rewrite fmap_cons in Hk'.
      apply not_elem_of_cons in Hk' as [Hne Hk'].
      rewrite Hacc by done. by apply lookup_insert_ne.
    + intros k' d Hk'. apply elem_of_cons in Hk' as [[= -> ->]|Hk'].
      * exists c. split_and!; [| done |].
        -- rewrite Hacc by done. apply lookup_insert_eq.
        -- rewrite Hold; [apply lookup_insert_eq|]. rewrite dom_insert_L. set_solver.
      * destruct (Hnew k' d Hk') as (src & Hb & Hsrc & Hv). exists src.
        split_and!; [done | | done]. intros Hin. by apply Hsrc, Hsub.
Qed.

(** Loading a state whose tensors lie apart from the own parameters makes
    every own parameter hold the value stored under its name, provided two
    names of one tensor are given one value. *)
Lemma copy_params_values (own : list (string * loc)) (sd : gmap string loc)
    (vals : string → data) (D : gset loc) :
  ∀ h : heap,
  (∀ n l, (n, l) ∈ own →
     l ∈ D ∧ ∃ src, sd !! n = Some src ∧ (src ∉ D) ∧ h !! src = Some (vals n)) →
  (∀ n1 n2 l, (n1, l) ∈ own → (n2, l) ∈ own → vals n1 = vals n2) →
  ∀ n l, (n, l) ∈ own → buf (copy_params own sd h) l = vals n.
Proof.
  induction own as [|[n0 p] rest IH]; intros h Hown Htie n l Hin.
  - by apply elem_of_nil in Hin.
  - destruct (Hown n0 p) as (Hp & src & Hsd & Hsrc & Hv); [by left|].
    simpl. rewrite Hsd. rewrite (buf_lookup _ _ _ Hv).
    assert (Hrest : ∀ n' l', (n', l') ∈ rest →
              buf (copy_params rest sd (<[p := vals n0]> h)) l' = vals n').
    { apply IH.
      - intros n' l' Hn'.
        destruct (Hown n' l') as (Hl' & src' & Hsd' & Hsrc' & Hv'); [by right|].
        split; [done|]. exists src'. split_and!; [done | done |].
        rewrite lookup_insert_ne; [done|]. by intros ->.
      - intros n1 n2 l' H1 H2. apply (Htie n1 n2 l'); by right. }
    apply elem_of_cons in Hin as [[= -> ->]|Hin]; [|by apply Hrest].
    destruct (decide (p ∈ (rest.*2))) as [Hr|Hr].
    + apply list_elem_of_fmap in Hr as ([n' p'] & Heq & Hr). simpl in Heq. subst p'.
      rewrite (Hrest n' p Hr). apply (Htie n' n0 p); [by right | by left].
    + apply buf_lookup. rewrite copy_params_frame by done. apply lookup_insert_eq.
Qed.

Lemma state_values_lookup (m : torch_model) (h : heap) (name : string) :
  state_values m h !! name = buf h <$> named_parameters m !! name.
Proof. unfold state_values. apply lookup_fmap. Qed.

Section serialization_props.
Variable msgpack_dumps : msgval → list Byte.byte.
Variable msgpack_loads : list Byte.byte → outcome msgval.
Variable torch_save : gmap string data → list Byte.byte.
Variable torch_load : torch_device → list Byte.byte → outcome (gmap string data).

Local Abbreviation envelope' := (envelope torch_save).
Local Abbreviation to_bytes' := (to_bytes msgpack_dumps torch_save).
Local Abbreviation from_bytes' := (from_bytes msgpack_loads torch_load).

Lemma envelope_fields (self : shim) (h : heap) :
  dom (envelope' self h) = {[ "config"; "state" ]} ∧
  envelope' self h !! "config" = Some (cfg self) ∧
  envelope' self h !! "state" = Some (MBin (torch_save (state_values (_model self) h))).
Proof.
  unfold envelope. split_and!.
  - rewrite !dom_insert_L, dom_empty_L. set_solver.
  - by simplify_map_eq.
  - by simplify_map_eq.
Qed.

(** Reading an envelope that has both fields, up to the load. *)
Lemma from_bytes_loads (self : shim) (device_type : string) (current_device : nat)
    (bytes_data : list Byte.byte) (h : heap) (m : gmap string msgval)
    (c : msgval) (b : list Byte.byte) (loaded : gmap string data) :
  msgpack_loads bytes_data = Ok (MMap m) →
  m !! "config" = Some c → m !! "state" = Some (MBin b) →
  torch_load (if decide (device_type = "cpu") then Cpu else Cuda current_device) b
    = Ok loaded →
  dom loaded = dom (named_parameters (_model self)) →
  ∃ h1 sd,
    alloc_items (map_to_list loaded) ∅ h = (h1, sd) ∧
    from_bytes' self device_type current_device bytes_data h =
      (set_model (set_cfg self c)
         (to_device (_model self)
            (if decide (device_type = "cpu") then Cpu else Cuda current_device)),
       copy_params (map_to_list (named_parameters (_model self))) sd h1,
       Ok tt).
Proof.
  intros Hloads Hc Hs Hload Hdom.
  destruct (alloc_items (map_to_list loaded) ∅ h) as [h1 sd] eqn:Ha.
  exists h1, sd. split; [done|].
  unfold from_bytes. rewrite Hloads. cbn [getitem]. rewrite Hc, Hs.
  cbn [mbind outcome_bind BytesIO]. rewrite Hload, Ha.
  destruct (alloc_items_spec _ _ _ _ _ Ha (NoDup_fst_map_to_list _))
    as (_ & Hacc & Hnew).
  assert (Hsd : dom sd = dom (named_parameters (_model (set_cfg self c)))).
  { simpl. rewrite <- Hdom. apply set_eq. intros k. rewrite !elem_of_dom. split.
    - intros [src Hsrc]. destruct (loaded !! k) as [d|] eqn:Hk; [done|].
      rewrite Hacc in Hsrc; [done|]. intros Hin.
      apply list_elem_of_fmap in Hin as ([k' d'] & -> & Hin).
      apply elem_of_map_to_list in Hin. simpl in Hk. congruence.
    - intros [d Hk]. apply elem_of_map_to_list in Hk.
      destruct (Hnew k d Hk) as (src & Hsrc & _). by exists src. }
  unfold load_state_dict. by rewrite decide_True.
Qed.
End serialization_props.



(** C9, as the code has it.  An envelope without [config] makes [from_bytes]
    fail with the [KeyError] of that lookup before anything is changed.  An
    envelope with [config] and without [state] makes it fail with the
    [KeyError] of the second lookup after the shim's config was replaced by
    the envelope's; the model and the buffers are unchanged. *)
Theorem from_bytes_missing_field
    (msgpack_loads : list Byte.byte → outcome msgval)
    (torch_load : torch_device → list Byte.byte → outcome (gmap string data))
    (self : shim) (device_type : string) (current_device : nat)
    (bytes_data : list Byte.byte) (h : heap) (m : gmap string msgval) :
  msgpack_loads bytes_data = Ok (MMap m) →
  (m !! "config" = None →
     from_bytes msgpack_loads torch_load self device_type current_device bytes_data h
       = (self, h, Raise (KeyError "config"))) ∧
  (∀ c, m !! "config" = Some c → m !! "state" = None →
     from_bytes msgpack_loads torch_load self device_type current_device bytes_data h
       = (set_cfg self c, h, Raise (KeyError "state")) ∧
     cfg (set_cfg self c) = c ∧
     _model (set_cfg self c) = _model self).
Proof.
  intros Hloads. split.
  - intros Hc. unfold from_bytes. rewrite Hloads. cbn [getitem]. by rewrite Hc.
  - intros c Hc Hs. unfold from_bytes. rewrite Hloads. cbn [getitem].
    by rewrite Hc, Hs.
Qed.

Lemma from_bytes_missing_field_witness :
  from_bytes demo_loads demo_load demo_shim "cpu" 0 [Byte.x00; Byte.x01] demo_heap
    = (demo_shim, demo_heap, Raise (KeyError "config")).
Proof.
  destruct (from_bytes_missing_field demo_loads demo_load demo_shim "cpu" 0
              [Byte.x00; Byte.x01] demo_heap (<["state" := MBin []]> ∅)) as [H _].
  - reflexivity.
  - apply H. reflexivity.
Defined.

(** The claim of C9 fails for an envelope that has [config] and lacks
    [state]: the call fails, and the shim's config is already the
    envelope's. *)
Lemma from_bytes_partial_mutation :
  let bytes_data := demo_dumps (MMap {[ "config" := MStr "other" ]}) in
  let r := from_bytes demo_loads demo_load demo_shim "cpu" 0 bytes_data demo_heap in
  demo_loads bytes_data = Ok (MMap {[ "config" := MStr "other" ]}) ∧
  r.2 = Raise (KeyError "state") ∧
  cfg demo_shim = MStr "cnn" ∧
  cfg r.1.1 = MStr "other" ∧
  cfg r.1.1 ≠ cfg demo_shim.
Proof. by vm_compute. Qed.

(** ** More on [use_params] *)

Lemma startswith_split (s pre : string) :
  startswith s pre = true → ∃ rest, s = pre ++ rest.
Proof.
  unfold startswith. revert s. induction pre as [|a pre IH]; intros s Hs.
  - by exists s.
  - destruct s as [|b s]; [done|]. simpl in Hs.
    destruct (Ascii.ascii_dec a b) as [->|]; [|done].
    destruct (IH s Hs) as [rest ->]. by exists rest.
Qed.

Lemma prefix_app_cancel (p a b : string) :
  String.prefix (p ++ a) (p ++ b) = String.prefix a b.
Proof.
  induction p as [|c p IH]; [done|]. simpl.
  by destruct (Ascii.ascii_dec c c).
Qed.





(** What the loop of lines 94-96 leaves in [state_dict], for items with
    distinct keys whose names do not contain the prefix. *)
Lemma collect_lookup (pre : string) (items : list (pykey * loc)) :
  pre ≠ "" →
  ∀ (acc : gmap string loc) (n : string),
  NoDup (items.*1) →
  (∀ name v, (KStr (pre ++ name), v) ∈ items → contains pre name = false) →
  (∀ v, (KStr (pre ++ n), v) ∈ items → collect_state_dict pre items acc !! n = Some v) ∧
  ((∀ v, (KStr (pre ++ n), v) ∉ items) → collect_state_dict pre items acc !! n = acc !! n).
Proof.
  intros Hpre. induction items as [|[k v0] rest IH]; intros acc n Hnd Hclean.
  - split; [|done]. intros v Hv. by apply elem_of_nil in Hv.
  - rewrite fmap_cons in Hnd. apply NoDup_cons in Hnd as [Hk Hnd]. simpl in Hk.
    assert (Hclean' : ∀ name v, (KStr (pre ++ name), v) ∈ rest →
              contains pre name = false).
    { intros name v Hv. apply (Hclean name v). by right. }
    assert (Hskip : ∀ acc',
              (∀ v, (KStr (pre ++ n), v) ∈ (k, v0) :: rest → (KStr (pre ++ n), v) ∈ rest) →
              (∀ v, (KStr (pre ++ n), v) ∈ (k, v0) :: rest →
                    collect_state_dict pre rest acc' !! n = Some v) ∧
              ((∀ v, (KStr (pre ++ n), v) ∉ (k, v0) :: rest) →
                    collect_state_dict pre rest acc' !! n = acc' !! n)).
    { intros acc' Hrest. destruct (IH acc' n Hnd Hclean') as [Ha Hb]. split.
      - intros v Hv. by apply Ha, Hrest.
      - intros Hno. apply Hb. intros v Hv. apply (Hno v). by right. }
    assert (Hother : ∀ ks, k = KStr ks → startswith ks pre = false →
              ∀ v, (KStr (pre ++ n), v) ∈ (k, v0) :: rest →
                   (KStr (pre ++ n), v) ∈ rest).
    { intros ks -> Hs v Hv. apply elem_of_cons in Hv as [[= <- _]|Hv]; [|done].
      unfold startswith in Hs. by rewrite prefix_app in Hs. }
    destruct k as [ks|z|i nm]; cbn [collect_state_dict has_startswith andb];
      unfold xp2torch.
    + destruct (startswith ks pre) eqn:Hs.
      * destruct (startswith_split _ _ Hs) as [name0 ->].
        assert (Hc0 : contains pre name0 = false).
        { apply (Hclean name0 v0). by left. }
        assert (Hstrip : str_replace pre "" (pre ++ name0) = name0).
        { by apply str_replace_recovers. }
        rewrite Hstrip. destruct (IH (<[name0 := v0]> acc) n Hnd Hclean') as [Ha Hb].
        split.
        -- intros v Hv. apply elem_of_cons in Hv as [[= Heq <-]|Hv]; [|by apply Ha].
           apply append_inv_head in Heq as <-.
           rewrite Hb; [apply lookup_insert_eq|].
           intros v' Hv'. apply Hk. apply list_elem_of_fmap.
           by exists (KStr (pre ++ n), v').
        -- intros Hno. rewrite Hb.
           ++ apply lookup_insert_ne. intros ->. apply (Hno v0). by left.
           ++ intros v Hv. apply (Hno v). by right.
      * apply Hskip. by apply (Hother ks).
    + apply Hskip. intros v Hv. by apply elem_of_cons in Hv as [[=]|Hv].
    + apply Hskip. intros v Hv. by apply elem_of_cons in Hv as [[=]|Hv].
Qed.

(** X4.  For a mapping in which no name under the shim's prefix contains
    the prefix again, [use_params] builds the state to load so that a name
    has exactly the value the mapping holds under prefix + name: every such
    key is taken, under its own name, and nothing else is.  The order in
    which the mapping yields its items does not matter: the items may come
    in any order. *)
Theorem use_params_state_dict (self : shim) (P : gmap pykey loc)
    (items : list (pykey * loc)) (name : string) :
  items ≡ₚ map_to_list P →
  (∀ n v, P !! KStr (key_prefix self ++ n) = Some v →
          contains (key_prefix self) n = false) →
  collect_state_dict (key_prefix self) items ∅ !! name =
    P !! KStr (key_prefix self ++ name).
Proof.
  intros Hperm Hclean.
  assert (Hin : ∀ k v, (k, v) ∈ items ↔ P !! k = Some v).
  { intros k v. rewrite Hperm. apply elem_of_map_to_list. }
  destruct (collect_lookup (key_prefix self) items
              (key_prefix_nonempty self) ∅ name) as [Ha Hb].
  { rewrite Hperm. apply NoDup_fst_map_to_list. }
  { intros n v Hv. apply Hin in Hv. by eapply Hclean. }
  destruct (P !! KStr (key_prefix self ++ name)) as [v|] eqn:Hp.
  - apply Ha. by apply Hin.
  - rewrite Hb; [done|]. intros v Hv. apply Hin in Hv. congruence.
Qed.

(** An instance: a store with the keys of shim 0 for ["w"] and ["b"], a key
    of shim 1 and a tuple key of a native layer, walked in two orders: both
    walks give the state with ["w"] and ["b"] and nothing else. *)
Lemma use_params_state_dict_witness :
  let P : gmap pykey loc :=
    <[KStr "pytorch_0_w" := 3%positive]> (<[KTuple 5 "W" := 4%positive]>
      (<[KStr "pytorch_1_w" := 2%positive]> (<[KStr "pytorch_0_b" := 4%positive]> ∅))) in
  let walk1 := [(KStr "pytorch_0_w", 3%positive); (KTuple 5 "W", 4%positive);
                (KStr "pytorch_1_w", 2%positive); (KStr "pytorch_0_b", 4%positive)] in
  let walk2 := [(KStr "pytorch_0_b", 4%positive); (KStr "pytorch_1_w", 2%positive);
                (KStr "pytorch_0_w", 3%positive); (KTuple 5 "W", 4%positive)] in
  collect_state_dict (key_prefix demo_shim) walk1 ∅ =
    <["w" := 3%positive]> (<["b" := 4%positive]> ∅) ∧
  collect_state_dict (key_prefix demo_shim) walk2 ∅ =
    collect_state_dict (key_prefix demo_shim) walk1 ∅.
Proof.
  intros P walk1 walk2.
  cut (∀ name,
    collect_state_dict (key_prefix demo_shim) walk1 ∅ !! name =
      (<["w" := 3%positive]> (<["b" := 4%positive]> ∅) : gmap string loc) !! name ∧
    collect_state_dict (key_prefix demo_shim) walk2 ∅ !! name =
      collect_state_dict (key_prefix demo_shim) walk1 ∅ !! name).
  { intros H. split; apply map_eq; intros name; apply H. }
  intros name.
  assert (Hclean : ∀ n v, P !! KStr (key_prefix demo_shim ++ n) = Some v →
            contains (key_prefix demo_shim) n = false).
  { intros n v Hv. unfold P in Hv.
    change (key_prefix demo_shim) with "pytorch_0_" in *.
    apply lookup_insert_Some in Hv as [[Heq _]|[_ Hv]].
    { injection Heq as Heq. change ("w" = n) in Heq. by subst n. }
    apply lookup_insert_Some in Hv as [[Heq _]|[_ Hv]]; [done|].
    apply lookup_insert_Some in Hv as [[Heq _]|[_ Hv]]; [done|].
    apply lookup_insert_Some in Hv as [[Heq _]|[_ Hv]]; [|done].
    injection Heq as Heq. change ("b" = n) in Heq. by subst n. }
  assert (H1 : walk1 ≡ₚ map_to_list P).
  { apply (bool_decide_unpack _). by vm_compute. }
  assert (H2 : walk2 ≡ₚ map_to_list P).
  { apply (bool_decide_unpack _). by vm_compute. }
  rewrite (use_params_state_dict demo_shim P walk2 name H2 Hclean).
  rewrite (use_params_state_dict demo_shim P walk1 name H1 Hclean).
  split; [|done].
  change (key_prefix demo_shim) with "pytorch_0_". unfold P.
  destruct (decide (name = "w")) as [->|Hw]; [reflexivity|].
  destruct (decide (name = "b")) as [->|Hb]; [reflexivity|].
  rewrite !(lookup_insert_ne (M:=gmap string)) by done.
  rewrite lookup_empty.
  assert (Hne1 : KStr ("pytorch_0_" ++ name) ≠ KStr "pytorch_0_w").
  { intros [= Heq]. exact (Hw Heq). }
  assert (Hne2 : KStr ("pytorch_0_" ++ name) ≠ KStr "pytorch_0_b").
  { intros [= Heq]. exact (Hb Heq). }
  assert (Hne3 : KStr ("pytorch_0_" ++ name) ≠ KStr "pytorch_1_w").
  { intros [=]. }
  rewrite lookup_insert_ne by done.
  rewrite lookup_insert_ne by done.
  rewrite lookup_insert_ne by done.
  rewrite lookup_insert_ne by done.
  done.
Defined.

(** ** Keys of different shims *)

Lemma pretty_N_char_no_underscore (x : N) : pretty_N_char x ≠ "_"%char.
Proof. unfold pretty_N_char. by repeat case_match. Qed.

Lemma pretty_N_go_no_underscore (x : N) :
  ∀ s, no_underscore s → no_underscore (pretty_N_go x s).
Proof.
  induction (N.lt_wf_0 x) as [x _ IH]. intros s Hs.
  assert (x = 0 ∨ 0 < x)%N as [->|Hx] by lia.
  - by rewrite pretty_N_go_0.
  - rewrite pretty_N_go_step by done. apply IH.
    + by apply N.div_lt.
    + split; [apply pretty_N_char_no_underscore | done].
Qed.

Lemma pretty_nat_no_underscore (n : nat) : no_underscore (pretty n).
Proof.
  unfold pretty, pretty_nat, pretty, pretty_N. case_decide.
  - by split.
  - by apply pretty_N_go_no_underscore.
Qed.

Lemma append_cons_l (c : ascii) (a b : string) : String c a ++ b = String c (a ++ b).
Proof. done. Qed.

Lemma prefix_cons (c d : ascii) (a b : string) :
  String.prefix (String c a) (String d b) =
  if Ascii.ascii_dec c d then String.prefix a b else false.
Proof. done. Qed.

(** Two digit strings, each followed by an underscore: one starts the other
    only when the digits are the same. *)
Lemma prefix_underscore (a : string) :
  ∀ b rest, no_underscore a → no_underscore b →
  String.prefix (a ++ "_") (b ++ "_" ++ rest) = true → a = b.
Proof.
  induction a as [|c a IH]; intros b rest Ha Hb Hp.
  - destruct b as [|d b]; [done|].
    rewrite append_empty_l, append_cons_l, prefix_cons in Hp.
    destruct (Ascii.ascii_dec "_" d) as [<-|]; [|done]. by destruct Hb.
  - destruct b as [|d b].
    + rewrite append_empty_l, !append_cons_l, prefix_cons in Hp.
      destruct (Ascii.ascii_dec c "_") as [->|]; [|done]. by destruct Ha.
    + rewrite !append_cons_l, prefix_cons in Hp.
      destruct (Ascii.ascii_dec c d) as [->|]; [|done].
      f_equal. apply (IH b rest); [apply Ha | apply Hb | done].
Qed.

Lemma key_prefix_other (i j : nat) (name : string) :
  startswith ("pytorch_" ++ pretty j ++ "_" ++ name) ("pytorch_" ++ pretty i ++ "_") = true →
  i = j.
Proof.
  unfold startswith. rewrite prefix_app_cancel. intros Hp.
  apply prefix_underscore in Hp; [|apply pretty_nat_no_underscore..].
  by apply (inj pretty).
Qed.

Lemma append_assoc3 (a b c : string) : (a ++ b) ++ c = a ++ b ++ c.
Proof. induction a as [|x a IH]; [done|]. by rewrite !append_cons_l, IH. Qed.

(** X5.  The prefix keeps shims apart: a key that another shim (another id)
    forms as its prefix + a parameter name never starts with this shim's
    prefix, whatever the name, so [use_params] skips it. *)
Theorem other_shim_keys_skipped (self other : shim) (name : string) (v : loc)
    (rest : list (pykey * loc)) (sd : gmap string loc) :
  shim_id self ≠ shim_id other →
  startswith (key_prefix other ++ name) (key_prefix self) = false ∧
  collect_state_dict (key_prefix self) ((KStr (key_prefix other ++ name), v) :: rest) sd
    = collect_state_dict (key_prefix self) rest sd.
Proof.
  intros Hid.
  assert (Hs : startswith (key_prefix other ++ name) (key_prefix self) = false).
  { destruct (startswith _ _) eqn:Hs; [|done]. destruct Hid.
    unfold key_prefix in Hs. rewrite !append_assoc3 in Hs.
    by apply key_prefix_other in Hs. }
  split; [done|]. cbn [collect_state_dict has_startswith andb]. by rewrite Hs.
Qed.

Lemma other_shim_keys_skipped_witness :
  collect_state_dict (key_prefix demo_shim)
    [(KStr "pytorch_10_w", 3%positive); (KStr "pytorch_0_w", 4%positive)] ∅
  = {[ "w" := 4%positive ]}.
Proof.
  pose proof (other_shim_keys_skipped demo_shim
    {| shim_id := 10; cfg := MNil; _model := demo_model; _optimizer := None |}
    "w" 3%positive [(KStr "pytorch_0_w", 4%positive)] ∅) as [_ H]; [done|].
  change (key_prefix _ ++ "w") with "pytorch_10_w" in H. rewrite H. reflexivity.
Defined.

Lemma collect_app (pre : string) (items1 items2 : list (pykey * loc)) :
  ∀ acc, collect_state_dict pre (items1 ++ items2) acc
         = collect_state_dict pre items2 (collect_state_dict pre items1 acc).
Proof.
  induction items1 as [|[k v] rest IH]; intros acc; [done|].
  destruct k as [ks| |]; simpl; [|apply IH..].
  destruct (startswith ks pre); apply IH.
Qed.

(** X18.  Two matching keys may strip to one name (a key whose name part
    contains the prefix again does); then the value of the key that the
    mapping yields later is the one loaded: whatever came before, the last
    matching key decides the entry of its stripped name. *)
Theorem use_params_last_key_wins (self : shim) (items : list (pykey * loc))
    (ks : string) (v : loc) (sd : gmap string loc) :
  startswith ks (key_prefix self) = true →
  collect_state_dict (key_prefix self) (items ++ [(KStr ks, v)]) sd
    !! str_replace (key_prefix self) "" ks = Some v.
Proof.
  intros Hs. rewrite collect_app. cbn [collect_state_dict has_startswith andb].
  rewrite Hs. apply lookup_insert_eq.
Qed.

Lemma use_params_last_key_wins_witness :
  collect_state_dict (key_prefix demo_shim)
    [(KStr "pytorch_0_w", 3%positive); (KStr "pytorch_0_pytorch_0_w", 4%positive)] ∅
  = {[ "w" := 4%positive ]}.
Proof.
  apply map_eq. intros name. destruct (decide (name = "w")) as [->|Hne].
  - rewrite lookup_singleton_eq.
    apply (use_params_last_key_wins demo_shim [(KStr "pytorch_0_w", 3%positive)]
             "pytorch_0_pytorch_0_w" 4%positive ∅).
    reflexivity.
  - rewrite lookup_singleton_ne by done.
    change (collect_state_dict _ _ ∅)
      with (<["w" := 4%positive]> (<["w" := 3%positive]> (∅ : gmap string loc))).
    by rewrite !lookup_insert_ne.
Defined.

(** ** More on [finish_update] *)

Section finish_update_more.
Variable model_parameters : torch_model → list loc.
Variable optim_init : optim_cls → list loc → gmap string argval → outcome unit.
Variable ops_update_averages : data → data → Z → data.
Variable clip_grad_norm_ : list loc → float → gmap loc loc → heap → heap * outcome unit.
Variable opt_step : torch_optimizer → gmap loc loc → heap → heap * outcome (gmap loc data).
Variable opt_zero_grad : list loc → gmap loc loc → heap → heap * gmap loc loc.

Local Abbreviation finish_update' :=
  (finish_update model_parameters optim_init ops_update_averages clip_grad_norm_
     opt_step opt_zero_grad).

Lemma finish_update_ok_adam (self : shim) (sgd : Optimizer) (w : world)
    (self' : shim) (sgd' : Optimizer) (w' : world) :
  finish_update' self sgd w = (self', sgd', w', Ok tt) →
  adam_family sgd = true.
Proof.
  intros Hrun. destruct (adam_family sgd) eqn:Hf; [done|].
  by rewrite finish_update_sgd_raises in Hrun.
Qed.
End finish_update_more.

(** X6.  [finish_update] can only return normally for an optimizer whose
    [b1] and [b2] are both nonzero.  For every other optimizer (plain
    gradient descent with [b1 = 0] too) it raises [NameError] at the class
    name of line 80 and changes nothing: the shim, the generic optimizer and
    what the foreign calls act on are as before. *)
Theorem finish_update_needs_both_moments
    (model_parameters : torch_model → list loc)
    (optim_init : optim_cls → list loc → gmap string argval → outcome unit)
    (ops_update_averages : data → data → Z → data)
    (clip_grad_norm_ : list loc → float → gmap loc loc → heap → heap * outcome unit)
    (opt_step : torch_optimizer → gmap loc loc → heap → heap * outcome (gmap loc data))
    (opt_zero_grad : list loc → gmap loc loc → heap → heap * gmap loc loc)
    (self : shim) (sgd : Optimizer) (w : world) :
  (nonzero (b1 sgd) && nonzero (b2 sgd) = false →
   finish_update model_parameters optim_init ops_update_averages clip_grad_norm_
     opt_step opt_zero_grad self sgd w
     = (self, sgd, w, Raise (NameError "thinc"))) ∧
  (∀ self' sgd' w',
     finish_update model_parameters optim_init ops_update_averages clip_grad_norm_
     opt_step opt_zero_grad self sgd w
       = (self', sgd', w', Ok tt) →
     nonzero (b1 sgd) && nonzero (b2 sgd) = true).
Proof.
  split.
  - intros Hf. by apply finish_update_sgd_raises.
  - intros self' sgd' w' Hrun. by eapply finish_update_ok_adam.
Qed.

Lemma finish_update_needs_both_moments_witness :
  let plain_sgd := {| learn_rate := 0.001%float; L2 := 0%float; b1 := 0%float;
                      b2 := 0%float; eps := 1e-8%float; L2_is_weight_decay := false;
                      grad_clip := None; averages := None; nr_update := ∅ |} in
  finish_update demo_parameters demo_init demo_rule demo_clip demo_step demo_zero_grad demo_shim plain_sgd demo_world
    = (demo_shim, plain_sgd, demo_world, Raise (NameError "thinc")).
Proof.
  intros plain_sgd.
  destruct (finish_update_needs_both_moments demo_parameters demo_init demo_rule demo_clip demo_step
              demo_zero_grad demo_shim plain_sgd demo_world) as [H _].
  apply H. reflexivity.
Defined.

(** X7.  A failure of [finish_update], whatever raises it (the class name,
    the constructor, the clipping or the step), is passed on before the gradients are cleared
    and before the averages are updated: the generic optimizer with its
    averages and counters, the [grad] attributes and the model of the shim
    are as they were before the call. *)
Theorem finish_update_failure_keeps_averages
    (model_parameters : torch_model → list loc)
    (optim_init : optim_cls → list loc → gmap string argval → outcome unit)
    (ops_update_averages : data → data → Z → data)
    (clip_grad_norm_ : list loc → float → gmap loc loc → heap → heap * outcome unit)
    (opt_step : torch_optimizer → gmap loc loc → heap → heap * outcome (gmap loc data))
    (opt_zero_grad : list loc → gmap loc loc → heap → heap * gmap loc loc)
    (self : shim) (sgd : Optimizer) (w : world)
    (self' : shim) (sgd' : Optimizer) (w' : world) (e : exn) :
  finish_update model_parameters optim_init ops_update_averages clip_grad_norm_
     opt_step opt_zero_grad self sgd w
    = (self', sgd', w', Raise e) →
  sgd' = sgd ∧ grad w' = grad w ∧ _model self' = _model self.
Proof.
  unfold finish_update.
  destruct (_get_pytorch_optimizer model_parameters optim_init self sgd (constructed w))
    as [[self1 n1] [o|e1]] eqn:Hget.
  - assert (Hm : _model self1 = _model self).
    { unfold _get_pytorch_optimizer in Hget.
      destruct (select_optimizer sgd) as [[cls args]|e2]; [|done].
      destruct (_optimizer self); [by injection Hget as <- _ _|].
      destruct (optim_init _ _ _); [|done]. by injection Hget as <- _ _. }
    destruct (match grad_clip sgd with
              | Some c => if truthy_clip (Some c)
                          then clip_grad_norm_ (model_parameters (_model self1)) c
                                 (grad (set_constructed w n1)) (bufs (set_constructed w n1))
                          else (bufs (set_constructed w n1), Ok tt)
              | None => (bufs (set_constructed w n1), Ok tt)
              end) as [h [[]|e1]].
    + destruct (opt_step o (grad (set_constructed w n1)) h) as [h' [st|e1]].
      * destruct (opt_zero_grad _ _ h') as [h'' g].
        by destruct (_update_pytorch_averages _ _ _ _ h'') as [h3 sgd3].
      * by intros [= <- <- <- _].
    + by intros [= <- <- <- _].
  - intros [= <- <- <- _]. unfold _get_pytorch_optimizer in Hget.
    destruct (select_optimizer sgd) as [[cls args]|e2].
    + destruct (_optimizer self); [by injection Hget|].
      destruct (optim_init _ _ _); [done|]. by injection Hget as <- _ _.
    + by injection Hget as <- _ _.
Qed.

Lemma finish_update_failure_keeps_averages_witness :
  ∃ self' w',
    finish_update demo_parameters demo_init demo_rule demo_clip failing_step demo_zero_grad
      demo_shim demo_averaging_sgd demo_world
      = (self', demo_averaging_sgd, w', Raise RuntimeError) ∧
    grad w' = grad demo_world ∧ is_Some (_optimizer self').
Proof.
  destruct (finish_update demo_parameters demo_init demo_rule demo_clip failing_step demo_zero_grad
              demo_shim demo_averaging_sgd demo_world)
    as [[[self' sgd'] w'] r] eqn:Hrun.
  assert (Hr : r = Raise RuntimeError) by (by vm_compute in Hrun; injection Hrun as _ _ _ <-).
  subst r.
  destruct (finish_update_failure_keeps_averages _ _ _ _ _ _ _ _ _ _ _ _ _ Hrun)
    as (-> & Hg & _).
  exists self', w'. split; [done|]. split; [done|].
  vm_compute in Hrun. injection Hrun as <- _. by eexists.
Defined.

(** X8.  When the generic optimizer has no clipping threshold, or has the
    threshold 0, the gradients are not clipped: the result of
    [finish_update] does not depend on what clipping would do. *)
Theorem finish_update_clip_skipped
    (model_parameters : torch_model → list loc)
    (optim_init : optim_cls → list loc → gmap string argval → outcome unit)
    (ops_update_averages : data → data → Z → data)
    (clip1 clip2 : list loc → float → gmap loc loc → heap → heap * outcome unit)
    (opt_step : torch_optimizer → gmap loc loc → heap → heap * outcome (gmap loc data))
    (opt_zero_grad : list loc → gmap loc loc → heap → heap * gmap loc loc)
    (self : shim) (sgd : Optimizer) (w : world) :
  truthy_clip (grad_clip sgd) = false →
  finish_update model_parameters optim_init ops_update_averages clip1 opt_step
    opt_zero_grad self sgd w =
  finish_update model_parameters optim_init ops_update_averages clip2 opt_step
    opt_zero_grad self sgd w.
Proof.
  intros Hc. unfold finish_update.
  destruct (_get_pytorch_optimizer model_parameters optim_init self sgd (constructed w))
    as [[self1 n1] [o|e1]]; [|done].
  destruct (grad_clip sgd) as [c|]; [|done]. by rewrite Hc.
Qed.

Lemma finish_update_clip_skipped_witness :
  let sgd := {| learn_rate := 0.001%float; L2 := 0%float; b1 := 0.9%float;
                b2 := 0.999%float; eps := 1e-8%float; L2_is_weight_decay := false;
                grad_clip := Some 0%float; averages := None; nr_update := ∅ |} in
  finish_update demo_parameters demo_init demo_rule (λ _ _ _ h, (h, Raise RuntimeError)) demo_step demo_zero_grad
    demo_shim sgd demo_world =
  finish_update demo_parameters demo_init demo_rule demo_clip demo_step demo_zero_grad demo_shim sgd demo_world.
Proof. intros sgd. apply finish_update_clip_skipped. reflexivity. Defined.

Lemma adam_args_dom (sgd : Optimizer) (k : string) :
  is_Some (adam_args sgd !! k) ↔ k ∈ ["lr"; "weight_decay"; "betas"; "eps"].
Proof.
  split.
  - intros [v Hv]. unfold adam_args in Hv.
    apply lookup_insert_Some in Hv as [[<- _]|[_ Hv]]; [set_solver|].
    apply lookup_insert_Some in Hv as [[<- _]|[_ Hv]]; [set_solver|].
    apply lookup_insert_Some in Hv as [[<- _]|[_ Hv]]; [set_solver|].
    apply lookup_insert_Some in Hv as [[<- _]|[_ Hv]]; [set_solver|].
    done.
  - intros Hk. destruct (adam_args_lookup sgd) as (Hlr & Hwd & Hb & He & _).
    rewrite !elem_of_cons in Hk.
    destruct Hk as [->|[->|[->|[->|Hk]]]]; [by eexists..|].
    by apply elem_of_nil in Hk.
Qed.

(** X9.  Once the shim has a foreign optimizer, a call on the Adam path
    keeps that object, its class and the parameters it is bound to, also
    when the call's own settings would select the other Adam class; in every
    parameter group it overwrites the four entries it derives ([lr],
    [weight_decay], [betas], [eps]) and leaves every other entry alone. *)
Theorem later_call_keeps_class
    (model_parameters : torch_model → list loc)
    (optim_init : optim_cls → list loc → gmap string argval → outcome unit)
    (ops_update_averages : data → data → Z → data)
    (clip_grad_norm_ : list loc → float → gmap loc loc → heap → heap * outcome unit)
    (opt_step : torch_optimizer → gmap loc loc → heap → heap * outcome (gmap loc data))
    (opt_zero_grad : list loc → gmap loc loc → heap → heap * gmap loc loc)
    (self : shim) (sgd : Optimizer) (w : world) (o : torch_optimizer) :
  nonzero (b1 sgd) && nonzero (b2 sgd) = true →
  _optimizer self = Some o →
  ∃ self' sgd' w' r o',
    finish_update model_parameters optim_init ops_update_averages clip_grad_norm_
     opt_step opt_zero_grad self sgd w
      = (self', sgd', w', r) ∧
    constructed w' = constructed w ∧
    _optimizer self' = Some o' ∧
    opt_id o' = opt_id o ∧ opt_cls o' = opt_cls o ∧ opt_params o' = opt_params o ∧
    Forall2 (λ g g' : gmap string argval,
        g' !! "lr" = Some (AFloat (learn_rate sgd)) ∧
        g' !! "weight_decay" = Some (AFloat (L2 sgd)) ∧
        g' !! "betas" = Some (APair (b1 sgd) (b2 sgd)) ∧
        g' !! "eps" = Some (AFloat (eps sgd)) ∧
        ∀ k, k ∉ ["lr"; "weight_decay"; "betas"; "eps"] → g' !! k = g !! k)
      (param_groups o) (param_groups o').
Proof.
  intros Hf Ho.
  destruct (finish_update_next model_parameters optim_init ops_update_averages
              clip_grad_norm_ opt_step opt_zero_grad self sgd w o Hf Ho)
    as (self' & sgd' & w' & r & o' & Hrun & Hn & _ & Ho' & Hid & Hcls & Hps & Hg).
  exists self', sgd', w', r, o'. split_and!; try done.
  rewrite Hg. apply Forall2_fmap_r, Forall_Forall2_diag, Forall_forall.
  intros g _. destruct (adam_args_lookup sgd) as (Hlr & Hwd & Hb & He & _).
  split_and!; try by apply lookup_union_Some_l.
  intros k Hk. apply lookup_union_r.
  destruct (adam_args sgd !! k) eqn:Hak; [|done].
  destruct Hk. apply (proj1 (adam_args_dom sgd k)). by eexists.
Qed.

Lemma later_call_keeps_class_witness :
  ∃ self' sgd' w' r o' g',
    finish_update demo_parameters demo_init demo_rule demo_clip demo_step demo_zero_grad
      demo_trained_shim (adam_sgd 0.5%float true) demo_world = (self', sgd', w', r) ∧
    _optimizer self' = Some o' ∧ opt_cls o' = Adam ∧
    param_groups o' = [g'] ∧
    g' !! "lr" = Some (AFloat 0.5%float) ∧
    g' !! "amsgrad" = Some (AFloat 0%float).
Proof.
  destruct (later_call_keeps_class demo_parameters demo_init demo_rule demo_clip demo_step demo_zero_grad
              demo_trained_shim (adam_sgd 0.5%float true) demo_world demo_adam_optimizer)
    as (self' & sgd' & w' & r & o' & Hrun & _ & Ho & _ & Hcls & _ & Hg);
    [reflexivity | reflexivity |].
  apply Forall2_cons_inv_l in Hg as (g' & gs & (Hlr & _ & _ & _ & Hk) & Hnil & Hgs).
  apply Forall2_nil_inv_l in Hnil as ->.
  exists self', sgd', w', r, o', g'. split_and!; try done.
  rewrite Hk; [reflexivity|].
  apply (bool_decide_unpack _). by vm_compute.
Defined.

Lemma update_all_final (rest : list Optimizer) :
  ∀ (prev final : Optimizer) (gs : list (gmap string argval)),
  Forall (λ g, ∀ k v, adam_args prev !! k = Some v → g !! k = Some v) gs →
  last (prev :: rest) = Some final →
  Forall (λ g, ∀ k v, adam_args final !! k = Some v → g !! k = Some v)
         (update_all gs rest).
Proof.
  induction rest as [|c rest IH]; intros prev final gs Hgs Hlast.
  - simpl in Hlast. by injection Hlast as <-.
  - cbn [update_all fold_left]. rewrite last_cons_cons in Hlast.
    apply (IH c final); [|done]. apply Forall_fmap, Forall_forall.
    intros g _ k v Hk. simpl. by apply lookup_union_Some_l.
Qed.

Lemma update_all_length (rest : list Optimizer) :
  ∀ gs, length (update_all gs rest) = length gs.
Proof.
  induction rest as [|c rest IH]; intros gs; [done|].
  cbn [update_all fold_left]. fold (update_all ((λ g, adam_args c ∪ g) <$> gs) rest).
  by rewrite IH, length_fmap.
Qed.

(** X10.  The lazy singleton on the Adam path.  Take any run of calls
    whose [b1] and [b2] are all nonzero, on a shim that has no optimizer yet,
    whatever clipping, stepping and clearing do or report.  When the
    constructor accepts the arguments of the first call, one optimizer is
    constructed over the run: by the first call, with the class the first
    call selects, bound to what [parameters()] of the model gives; after the
    run its one parameter group holds the four hyperparameters derived from
    the last call.  When the constructor refuses them, the first call fails
    with the constructor's exception, nothing is constructed or changed by
    it, and the rest of the run starts from a shim without an optimizer. *)
Theorem lazy_singleton_adam_run
    (model_parameters : torch_model → list loc)
    (optim_init : optim_cls → list loc → gmap string argval → outcome unit)
    (ops_update_averages : data → data → Z → data)
    (clip_grad_norm_ : list loc → float → gmap loc loc → heap → heap * outcome unit)
    (opt_step : torch_optimizer → gmap loc loc → heap → heap * outcome (gmap loc data))
    (opt_zero_grad : list loc → gmap loc loc → heap → heap * gmap loc loc)
    (first final : Optimizer) (rest : list Optimizer) (self : shim) (w : world) :
  let run := finish_updates model_parameters optim_init ops_update_averages
               clip_grad_norm_ opt_step opt_zero_grad in
  let cls := if L2_is_weight_decay first then AdamW else Adam in
  Forall (λ c, nonzero (b1 c) && nonzero (b2 c) = true) (first :: rest) →
  last (first :: rest) = Some final →
  _optimizer self = None →
  (optim_init cls (model_parameters (_model self)) (adam_args first) = Ok tt →
   ∃ self' w' rs o g,
     run self (first :: rest) w = (self', w', rs) ∧
     constructed w' = S (constructed w) ∧
     _optimizer self' = Some o ∧
     opt_id o = constructed w ∧
     opt_cls o = cls ∧
     opt_params o = model_parameters (_model self) ∧
     param_groups o = [g] ∧
     g !! "lr" = Some (AFloat (learn_rate final)) ∧
     g !! "weight_decay" = Some (AFloat (L2 final)) ∧
     g !! "betas" = Some (APair (b1 final) (b2 final)) ∧
     g !! "eps" = Some (AFloat (eps final))) ∧
  (∀ e, optim_init cls (model_parameters (_model self)) (adam_args first) = Raise e →
   ∃ self' w' rs,
     run self rest w = (self', w', rs) ∧
     run self (first :: rest) w = (self', w', Raise e :: rs)).
Proof.
  intros run cls Hall Hlast Hnone. split.
  - intros Hacc.
    destruct (finish_updates_adam_singleton model_parameters optim_init
                ops_update_averages clip_grad_norm_ opt_step opt_zero_grad
                first rest self w Hall Hnone Hacc)
      as (self' & w' & rs & o & Hrun & Hn & Ho & Hid & Hcls & Hps & Hg).
    assert (Hfin : Forall (λ g, ∀ k v, adam_args final !! k = Some v → g !! k = Some v)
                     (update_all [adam_args first] rest)).
    { apply (update_all_final rest first final); [|done]. by repeat constructor. }
    assert (Hlen : length (update_all [adam_args first] rest) = 1).
    { by rewrite update_all_length. }
    rewrite <- Hg in Hfin, Hlen.
    destruct (param_groups o) as [|g [|g' gs]] eqn:Hgs; [done| |done].
    apply Forall_inv in Hfin.
    destruct (adam_args_lookup final) as (Hlr & Hwd & Hb & He & _).
    exists self', w', rs, o, g. split_and!; try done; by apply Hfin.
  - intros e Hrej. apply Forall_cons in Hall as [Hc _].
    destruct (run self rest w) as [[self' w'] rs] eqn:Hrest.
    exists self', w', rs. split; [done|].
    unfold run. cbn [finish_updates].
    rewrite (finish_update_rejected model_parameters optim_init ops_update_averages
               clip_grad_norm_ opt_step opt_zero_grad self first w e Hc Hnone Hrej).
    fold run. by rewrite Hrest.
Qed.

(** Instances, with a constructor that refuses a learning rate below zero
    and steps that always fail.  Three calls with the rates 0.001, 0.01 and
    0.1: one optimizer, of the first call's class, holding the rate 0.1.
    With a first call of rate -1, nothing is constructed by it; the second
    call constructs, with its own class. *)
Lemma lazy_singleton_adam_run_witness :
  (∃ self' w' rs o g,
     finish_updates demo_parameters demo_init demo_rule demo_clip failing_step
       demo_zero_grad demo_shim
       [adam_sgd 0.001%float false; adam_sgd 0.01%float true; adam_sgd 0.1%float true]
       demo_world = (self', w', rs) ∧
     constructed w' = 1 ∧ _optimizer self' = Some o ∧ opt_cls o = Adam ∧
     param_groups o = [g] ∧ g !! "lr" = Some (AFloat 0.1%float)) ∧
  (∃ self' w' rs o,
     finish_updates demo_parameters demo_init demo_rule demo_clip failing_step
       demo_zero_grad demo_shim
       [adam_sgd (-1)%float false; adam_sgd 0.01%float true] demo_world
       = (self', w', Raise ValueError :: rs) ∧
     constructed w' = 1 ∧ _optimizer self' = Some o ∧ opt_cls o = AdamW).
Proof.
  split.
  - destruct (lazy_singleton_adam_run demo_parameters demo_init demo_rule demo_clip
                failing_step demo_zero_grad
                (adam_sgd 0.001%float false) (adam_sgd 0.1%float true)
                [adam_sgd 0.01%float true; adam_sgd 0.1%float true] demo_shim demo_world)
      as [H _]; [by repeat constructor | reflexivity | reflexivity |].
    destruct H as (self' & w' & rs & o & g & Hrun & Hn & Ho & _ & Hcls & _ & Hg & Hlr & _);
      [by vm_compute|].
    by exists self', w', rs, o, g.
  - destruct (lazy_singleton_adam_run demo_parameters demo_init demo_rule demo_clip
                failing_step demo_zero_grad
                (adam_sgd (-1)%float false) (adam_sgd 0.01%float true)
                [adam_sgd 0.01%float true] demo_shim demo_world)
      as [_ H]; [by repeat constructor | reflexivity | reflexivity |].
    destruct (H ValueError) as (self' & w' & rs & Hrest & Hrun); [by vm_compute|].
    exists self', w', rs. vm_compute in Hrest. injection Hrest as <- <- <-.
    eexists. split; [exact Hrun|]. by vm_compute.
Defined.

(** ** More on [_update_pytorch_averages] *)

(** The loop never drops an average, and gives one to every key it visits. *)
Lemma averages_loop_dom (rule : data → data → Z → data) (prefix : string)
    (init_steps : Z) (items : list (string * loc)) :
  ∀ (h h' : heap) (av av' : gmap pykey loc) (nr nr' : gmap pykey Z),
  averages_loop rule prefix init_steps items (h, av, nr) = (h', av', nr') →
  (∀ k, is_Some (av !! k) → is_Some (av' !! k)) ∧
  (∀ n l, (n, l) ∈ items → is_Some (av' !! KStr (prefix ++ n))).
Proof.
  induction items as [|[n0 l0] rest IH]; intros h h' av av' nr nr' Hrun.
  - injection Hrun as <- <- <-. split; [done|].
    intros n l Hin. by apply elem_of_nil in Hin.
  - unfold averages_loop in Hrun. cbn [fold_left] in Hrun.
    destruct (averages_step rule prefix init_steps (h, av, nr) (n0, l0))
      as [[h1 av1] nr1] eqn:Hstep.
    destruct (IH _ _ _ _ _ _ Hrun) as [Hkeep Hnew].
    assert (H1 : (∀ k, is_Some (av !! k) → is_Some (av1 !! k)) ∧
                 is_Some (av1 !! KStr (prefix ++ n0))).
    { destruct (av !! KStr (prefix ++ n0)) as [ema|] eqn:Hav.
      - rewrite (averages_step_old _ _ _ _ _ _ _ _ ema) in Hstep by done.
        injection Hstep as <- <- <-. by split.
      - rewrite averages_step_new in Hstep by done.
        injection Hstep as <- <- <-. split.
        + intros k Hk. rewrite lookup_insert_is_Some. destruct (decide (KStr (prefix ++ n0) = k)); auto.
        + rewrite lookup_insert_eq. by eexists. }
    destruct H1 as [Hkeep1 Hnew1]. split.
    + intros k Hk. by apply Hkeep, Hkeep1.
    + intros n l Hin. apply elem_of_cons in Hin as [[= -> ->]|Hin].
      * by apply Hkeep.
      * by eapply Hnew.
Qed.

(** X11.  The call touches the keys of this shim's parameters only: every
    other key of the store (keys of other shims, the tuple keys of native
    layers) keeps its average and its counter, no average is ever removed,
    and every buffer that is not the average of one of this shim's parameter
    keys is left as it is. *)
Theorem update_averages_other_keys (ops_update_averages : data → data → Z → data)
    (self : shim) (sgd : Optimizer) (init_steps : option Z) (h : heap)
    (av : gmap pykey loc) :
  averages sgd = Some av →
  ∃ h' av' nr',
    _update_pytorch_averages ops_update_averages self sgd init_steps h
      = (h', set_stores sgd av' nr') ∧
    (∀ k, (∀ name, name ∈ dom (named_parameters (_model self)) →
                   k ≠ KStr (key_prefix self ++ name)) →
          av' !! k = av !! k ∧ nr' !! k = nr_update sgd !! k) ∧
    (∀ k, is_Some (av !! k) → is_Some (av' !! k)) ∧
    (∀ x, x ∈ dom h →
          (∀ name, name ∈ dom (named_parameters (_model self)) →
                   av !! KStr (key_prefix self ++ name) ≠ Some x) →
          h' !! x = h !! x).
Proof.
  intros Hav. unfold _update_pytorch_averages. rewrite Hav.
  set (items := map_to_list (named_parameters (_model self))).
  destruct (averages_loop ops_update_averages (key_prefix self)
              (default 1%Z init_steps) items (h, av, nr_update sgd))
    as [[h' av'] nr'] eqn:Hrun.
  exists h', av', nr'. split; [done|].
  destruct (averages_loop_frame _ _ _ _ _ _ _ _ _ _ Hrun) as (_ & Hk & Hh).
  destruct (averages_loop_dom _ _ _ _ _ _ _ _ _ _ Hrun) as (Hkeep & _).
  assert (Hin : ∀ n l, (n, l) ∈ items → n ∈ dom (named_parameters (_model self))).
  { intros n l Hn. apply elem_of_map_to_list in Hn. apply elem_of_dom. by eexists. }
  split_and!; [| done |].
  - intros k Hne. apply Hk. intros n l Hn. by eapply Hne, Hin.
  - intros x Hx Hne. apply Hh; [done|]. intros n l Hn. by eapply Hne, Hin.
Qed.

Lemma update_averages_other_keys_witness :
  let sgd := {| learn_rate := 0.001%float; L2 := 0%float; b1 := 0.9%float;
                b2 := 0.999%float; eps := 1e-8%float; L2_is_weight_decay := false;
                grad_clip := None;
                averages := Some {[ KStr "pytorch_7_w" := 3%positive ]};
                nr_update := {[ KStr "pytorch_7_w" := 5%Z ]} |} in
  ∃ h' av' nr',
    _update_pytorch_averages demo_rule demo_shim sgd None demo_heap
      = (h', set_stores sgd av' nr') ∧
    av' !! KStr "pytorch_7_w" = Some 3%positive ∧
    nr' !! KStr "pytorch_7_w" = Some 5%Z ∧
    h' !! 3%positive = Some [30%Z].
Proof.
  intros sgd.
  destruct (update_averages_other_keys demo_rule demo_shim sgd None demo_heap
              {[ KStr "pytorch_7_w" := 3%positive ]} eq_refl)
    as (h' & av' & nr' & Hrun & Hk & _ & Hh).
  exists h', av', nr'. split; [exact Hrun|].
  assert (Hdom : ∀ name, name ∈ dom (named_parameters (_model demo_shim)) →
            name = "w" ∨ name = "b").
  { intros name Hn. apply elem_of_dom in Hn as [l Hl].
    change (named_parameters (_model demo_shim))
      with (<["w" := 1%positive]> (<["b" := 2%positive]> (∅ : gmap string loc))) in Hl.
    apply lookup_insert_Some in Hl as [[<- _]|[_ Hl]]; [by left|].
    apply lookup_insert_Some in Hl as [[<- _]|[_ Hl]]; [by right | done]. }
  destruct (Hk (KStr "pytorch_7_w")) as [-> ->].
  { intros name Hn. by destruct (Hdom name Hn) as [->| ->]. }
  rewrite Hh.
  - done.
  - apply (bool_decide_unpack _). by vm_compute.
  - intros name Hn. by destruct (Hdom name Hn) as [->| ->].
Defined.

Lemma avg_wf_insert_param (h : heap) (av : gmap pykey loc) (M : list loc)
    (l : loc) (d : data) :
  avg_wf h av M → avg_wf (<[l := d]> h) av M.
Proof.
  intros (Hal & Hinj & Hsep & HM). split_and!; [| done | done |].
  - intros k x Hx. rewrite dom_insert_L. apply elem_of_union_r. by eapply Hal.
  - intros x Hx. rewrite dom_insert_L. apply elem_of_union_r. by apply HM.
Qed.

(** X12.  Two calls with a parameter update in between.  For a parameter
    whose key has no average yet (in a store whose averages own their
    buffers): the first call copies the value [v] of the parameter; after
    the parameter is overwritten with [d], the second call counts the second
    update and leaves in the same average buffer the backend's rule applied
    to [v], [d] and the count 2; the parameter still holds [d]. *)
Theorem update_averages_twice (ops_update_averages : data → data → Z → data)
    (self : shim) (sgd : Optimizer) (h : heap) (av : gmap pykey loc)
    (name : string) (l : loc) (d : data) :
  averages sgd = Some av →
  avg_wf h av (state_tensors (_model self)) →
  named_parameters (_model self) !! name = Some l →
  av !! KStr (key_prefix self ++ name) = None →
  ∃ h1 sgd1 h2 sgd2 av2 c,
    _update_pytorch_averages ops_update_averages self sgd None h = (h1, sgd1) ∧
    _update_pytorch_averages ops_update_averages self sgd1 None (<[l := d]> h1)
      = (h2, sgd2) ∧
    averages sgd2 = Some av2 ∧
    av2 !! KStr (key_prefix self ++ name) = Some c ∧
    nr_update sgd2 !! KStr (key_prefix self ++ name) = Some 2%Z ∧
    buf h2 c = ops_update_averages (buf h l) d 2%Z ∧
    buf h2 l = d.
Proof.
  intros Hav Hwf Hname Hnone.
  set (items := map_to_list (named_parameters (_model self))).
  set (M := state_tensors (_model self)) in *.
  assert (Hin : (name, l) ∈ items) by by apply elem_of_map_to_list.
  assert (HM : ∀ n p, (n, p) ∈ items → p ∈ M).
  { intros n p Hn. unfold M, state_tensors. apply list_elem_of_fmap. by exists (n, p). }
  assert (Hnd : NoDup (items.*1)) by apply NoDup_fst_map_to_list.
  (* the first call *)
  destruct (averages_loop ops_update_averages (key_prefix self) 1%Z items
              (h, av, nr_update sgd)) as [[h1 av1] nr1] eqn:Hrun1.
  pose proof (averages_loop_wf _ _ _ M _ _ _ _ _ _ _ Hrun1 Hwf) as Hwf1.
  pose proof (averages_loop_spec _ _ _ M items _ _ _ _ _ _ Hrun1 Hnd Hwf HM name l Hin)
    as Hpost1.
  cbv beta in Hpost1. rewrite Hnone in Hpost1. destruct Hpost1 as (c & Hc & Hfresh & Hbuf1 & Hnr1).
  (* the parameter is overwritten *)
  assert (Hl : l ∈ dom h).
  { destruct Hwf as (_ & _ & _ & HMd). by eapply HMd, HM. }
  assert (Hcl : c ≠ l) by (by intros ->).
  pose proof (avg_wf_insert_param h1 av1 M l d Hwf1) as Hwf1'.
  (* the second call *)
  destruct (averages_loop ops_update_averages (key_prefix self) 1%Z items
              (<[l := d]> h1, av1, nr1)) as [[h2 av2] nr2] eqn:Hrun2.
  pose proof (averages_loop_spec _ _ _ M items _ _ _ _ _ _ Hrun2 Hnd Hwf1' HM name l Hin)
    as Hpost2.
  cbv beta in Hpost2. rewrite Hc in Hpost2. destruct Hpost2 as (Hc2 & Hnr2 & Hbuf2).
  exists h1, (set_stores sgd av1 nr1), h2, (set_stores sgd av2 nr2), av2, c.
  split_and!.
  - unfold _update_pytorch_averages. rewrite Hav. simpl. fold items. by rewrite Hrun1.
  - unfold _update_pytorch_averages. simpl. fold items. by rewrite Hrun2.
  - done.
  - done.
  - simpl. rewrite Hnr2. unfold nr_get. by rewrite Hnr1.
  - rewrite Hbuf2. unfold nr_get. rewrite Hnr1. simpl. f_equal.
    + rewrite <- Hbuf1. apply buf_eq. by apply lookup_insert_ne.
    + apply buf_lookup, lookup_insert_eq.
  - destruct (averages_loop_frame _ _ _ _ _ _ _ _ _ _ Hrun2) as (_ & _ & Hh).
    destruct Hwf1' as (_ & _ & Hsep & HMd).
    transitivity (buf (<[l := d]> h1) l); [|apply buf_lookup, lookup_insert_eq].
    apply buf_eq, Hh.
    + by eapply HMd, HM.
    + intros n p Hn Hax. eapply Hsep; [exact Hax|]. by eapply HM.
Qed.

Lemma update_averages_twice_witness :
  let sgd := {| learn_rate := 0.001%float; L2 := 0%float; b1 := 0.9%float;
                b2 := 0.999%float; eps := 1e-8%float; L2_is_weight_decay := false;
                grad_clip := None; averages := Some ∅; nr_update := ∅ |} in
  ∃ h2 sgd2 av2 c,
    averages sgd2 = Some av2 ∧ av2 !! KStr "pytorch_0_w" = Some c ∧
    nr_update sgd2 !! KStr "pytorch_0_w" = Some 2%Z ∧
    buf h2 c = [15%Z] ∧ buf h2 1%positive = [20%Z].
Proof.
  intros sgd.
  destruct (update_averages_twice demo_rule demo_shim sgd demo_heap ∅ "w"
              1%positive [20%Z])
    as (h1 & sgd1 & h2 & sgd2 & av2 & c & _ & _ & Hav & Hc & Hnr & Hb & Hl).
  - reflexivity.
  - split_and!; [done | done | done |].
    apply Forall_forall. apply (bool_decide_unpack _). by vm_compute.
  - reflexivity.
  - reflexivity.
  - exists h2, sgd2, av2, c. by split_and!.
Defined.

(** X13.  The averages that the call writes can be handed to [use_params]
    (as the training script does with [optimizer.averages]).  Let no
    parameter name of the model contain the shim's prefix, and let the store
    hold nothing under the prefix yet, so that every average of this shim is
    a copy that the call makes.  Then the store of the optimizer that the
    call leaves has, for every parameter, an average under the parameter's
    key; and in whatever order that store yields its items, [use_params]
    finds the average of every parameter under the parameter's own name, the
    state it builds names exactly the tensors of the model's state, and the
    scope is entered. *)
Theorem averages_enter_scope (ops_update_averages : data → data → Z → data)
    (self : shim) (sgd : Optimizer) (init_steps : option Z) (h : heap)
    (av : gmap pykey loc) :
  averages sgd = Some av →
  (∀ name, name ∈ dom (named_parameters (_model self)) →
           contains (key_prefix self) name = false) →
  (∀ n, av !! KStr (key_prefix self ++ n) = None) →
  ∃ h' sgd' av',
    _update_pytorch_averages ops_update_averages self sgd init_steps h = (h', sgd') ∧
    averages sgd' = Some av' ∧
    ∀ items, items ≡ₚ map_to_list av' →
      dom (collect_state_dict (key_prefix self) items ∅)
        = dom (named_parameters (_model self)) ∧
      (∃ h1 fr, before_yield (use_params self items) h' = (h1, Ok fr)) ∧
      ∀ name, name ∈ dom (named_parameters (_model self)) →
        ∃ c, av' !! KStr (key_prefix self ++ name) = Some c ∧
             collect_state_dict (key_prefix self) items ∅ !! name = Some c.
Proof.
  intros Hav Hclean Hfresh. unfold _update_pytorch_averages. rewrite Hav.
  set (pre := key_prefix self) in *.
  set (m := _model self) in *.
  set (own := map_to_list (named_parameters m)).
  destruct (averages_loop ops_update_averages pre (default 1%Z init_steps) own
              (h, av, nr_update sgd)) as [[h' av'] nr'] eqn:Hrun.
  destruct (averages_loop_frame _ _ _ _ _ _ _ _ _ _ Hrun) as (_ & Hk & _).
  destruct (averages_loop_dom _ _ _ _ _ _ _ _ _ _ Hrun) as (_ & Hnew).
  (* the keys under the prefix are those of the parameters *)
  assert (Hkeys : ∀ n, is_Some (av' !! KStr (pre ++ n)) ↔ n ∈ dom (named_parameters m)).
  { intros n. split.
    - intros Hn. destruct (decide (n ∈ dom (named_parameters m))) as [|Hno]; [done|].
      destruct (Hk (KStr (pre ++ n))) as [Heq _].
      { intros n' l' Hin [= Heq]. apply append_inv_head in Heq as ->.
        apply Hno. apply elem_of_map_to_list in Hin. apply elem_of_dom. by eexists. }
      rewrite Heq, Hfresh in Hn. by destruct Hn.
    - intros Hn. apply elem_of_dom in Hn as [l Hl].
      apply (Hnew n l). by apply elem_of_map_to_list. }
  exists h', (set_stores sgd av' nr'), av'. split; [done|]. split; [done|].
  intros items Hperm.
  assert (Hin : ∀ k v, (k, v) ∈ items ↔ av' !! k = Some v).
  { intros k v. rewrite Hperm. apply elem_of_map_to_list. }
  (* so the state to load is the store read under the prefix *)
  assert (Hsd : ∀ n, collect_state_dict pre items ∅ !! n = av' !! KStr (pre ++ n)).
  { intros n.
    destruct (collect_lookup pre items (key_prefix_nonempty self) ∅ n) as [Ha Hb].
    { rewrite Hperm. apply NoDup_fst_map_to_list. }
    { intros name v Hv. apply Hin in Hv. apply Hclean, Hkeys. by eexists. }
    destruct (av' !! KStr (pre ++ n)) as [v|] eqn:Hp.
    - apply Ha. by apply Hin.
    - rewrite Hb; [done|]. intros v Hv. apply Hin in Hv. congruence. }
  assert (Hdom : dom (collect_state_dict pre items ∅) = dom (named_parameters m)).
  { apply set_eq. intros n. rewrite elem_of_dom, Hsd. apply Hkeys. }
  split_and!; [done | |].
  - cbn [use_params before_yield]. fold pre m. case_decide; [by eexists _, _|].
    destruct (clone_items (map_to_list (named_parameters m)) ∅ h') as [h0 backup].
    unfold load_state_dict. rewrite decide_True by done. by eexists _, _.
  - intros name Hname. apply Hkeys in Hname as [c Hc]. exists c. by rewrite Hsd.
Qed.

(** An instance: the first call on an empty store, which is then walked in
    the reverse of its own order. *)
Lemma averages_enter_scope_witness :
  let sgd := {| learn_rate := 0.001%float; L2 := 0%float; b1 := 0.9%float;
                b2 := 0.999%float; eps := 1e-8%float; L2_is_weight_decay := false;
                grad_clip := None; averages := Some ∅; nr_update := ∅ |} in
  ∃ h' sgd' av' h1 fr,
    _update_pytorch_averages demo_rule demo_shim sgd None demo_heap = (h', sgd') ∧
    averages sgd' = Some av' ∧
    before_yield (use_params demo_shim (reverse (map_to_list av'))) h' = (h1, Ok fr) ∧
    is_Some (collect_state_dict (key_prefix demo_shim) (reverse (map_to_list av')) ∅
               !! "w") ∧
    is_Some (collect_state_dict (key_prefix demo_shim) (reverse (map_to_list av')) ∅
               !! "b").
Proof.
  intros sgd.
  destruct (averages_enter_scope demo_rule demo_shim sgd None demo_heap ∅)
    as (h' & sgd' & av' & Hrun & Hav & Hwalk).
  - reflexivity.
  - intros name Hn. apply elem_of_dom in Hn as [l Hl].
    change (named_parameters (_model demo_shim))
      with (<["w" := 1%positive]> (<["b" := 2%positive]> (∅ : gmap string loc))) in Hl.
    apply lookup_insert_Some in Hl as [[<- _]|[_ Hl]]; [reflexivity|].
    apply lookup_insert_Some in Hl as [[<- _]|[_ Hl]]; [reflexivity | done].
  - intros n. apply lookup_empty.
  - destruct (Hwalk (reverse (map_to_list av'))) as (_ & (h1 & fr & Hb) & Hnames).
    { apply reverse_Permutation. }
    exists h', sgd', av', h1, fr. split_and!; [done | done | done | |].
    + destruct (Hnames "w") as (c & _ & Hc); [|by eexists].
      apply elem_of_dom. by eexists.
    + destruct (Hnames "b") as (c & _ & Hc); [|by eexists].
      apply elem_of_dom. by eexists.
Defined.

(** ** More on [from_bytes] *)

(** X14.  Whatever makes [from_bytes] fail (the decoding, a missing field, a
    state that is not bytes, the tensor codec, a state with other names),
    the shim keeps its model (names, mode, device), its optimizer and its
    identity, and no buffer outside the model's parameters is changed; its
    config is the old one, or already the one of the decoded envelope. *)
Theorem from_bytes_failure_invariants
    (msgpack_loads : list Byte.byte → outcome msgval)
    (torch_load : torch_device → list Byte.byte → outcome (gmap string data))
    (self : shim) (device_type : string) (current_device : nat)
    (bytes_data : list Byte.byte) (h : heap) (self' : shim) (h' : heap) (e : exn) :
  from_bytes msgpack_loads torch_load self device_type current_device bytes_data h
    = (self', h', Raise e) →
  _model self' = _model self ∧
  _optimizer self' = _optimizer self ∧
  shim_id self' = shim_id self ∧
  (∀ l, l ∈ dom h → l ∉ state_tensors (_model self) → h' !! l = h !! l) ∧
  (cfg self' = cfg self ∨
   ∃ m, msgpack_loads bytes_data = Ok (MMap m) ∧ m !! "config" = Some (cfg self')).
Proof.
  unfold from_bytes.
  destruct (msgpack_loads bytes_data) as [msg|e0] eqn:Hloads.
  2: { intros [= <- <- _]. split_and!; auto. }
  destruct (getitem msg "config") as [c|e0] eqn:Hc.
  2: { intros [= <- <- _]. split_and!; auto. }
  assert (Hcfg : ∃ m, Ok msg = Ok (MMap m) ∧ m !! "config" = Some c).
  { destruct msg as [| | | | | |m]; try done. exists m. split; [done|].
    simpl in Hc. by destruct (m !! "config"); simplify_eq. }
  destruct (getitem msg "state" ≫= BytesIO) as [filelike|e0].
  2: { intros [= <- <- _]. split_and!; auto. }
  destruct (torch_load _ filelike) as [loaded|e0].
  2: { intros [= <- <- _]. split_and!; auto. }
  destruct (alloc_items (map_to_list loaded) ∅ h) as [h1 sd] eqn:Ha.
  destruct (alloc_items_spec _ _ _ _ _ Ha (NoDup_fst_map_to_list _)) as (Hold & _ & _).
  unfold load_state_dict. case_decide; [done|].
  intros [= <- <- _]. split_and!; auto.
  intros l Hl Hp. rewrite copy_params_frame by done. by apply Hold.
Qed.

Lemma from_bytes_failure_invariants_witness :
  ∃ self' h',
    from_bytes demo_loads demo_load demo_shim "cpu" 0 demo_foreign_bytes demo_heap
      = (self', h', Raise RuntimeError) ∧
    _model self' = demo_model ∧ cfg self' = MStr "v2" ∧
    h' !! 3%positive = Some [30%Z].
Proof.
  destruct (from_bytes demo_loads demo_load demo_shim "cpu" 0 demo_foreign_bytes demo_heap)
    as [[self' h'] r] eqn:Hrun.
  assert (Hr : r = Raise RuntimeError ∧ cfg self' = MStr "v2").
  { vm_compute in Hrun. by injection Hrun as <- _ <-. }
  destruct Hr as [-> Hcfg].
  destruct (from_bytes_failure_invariants _ _ _ _ _ _ _ _ _ _ Hrun)
    as (Hm & _ & _ & Hh & _).
  exists self', h'. split_and!; [done | done | done |].
  rewrite Hh; [done | |]; apply (bool_decide_unpack _); by vm_compute.
Defined.

Lemma alloc_items_dom (loaded : gmap string data) (h h1 : heap)
    (sd : gmap string loc) :
  alloc_items (map_to_list loaded) ∅ h = (h1, sd) → dom sd = dom loaded.
Proof.
  intros Ha.
  destruct (alloc_items_spec _ _ _ _ _ Ha (NoDup_fst_map_to_list _))
    as (_ & Hacc & Hnew).
  apply set_eq. intros k. rewrite !elem_of_dom. split.
  - intros [src Hsrc]. destruct (loaded !! k) as [d|] eqn:Hk; [done|].
    rewrite Hacc in Hsrc; [done|]. intros Hin.
    apply list_elem_of_fmap in Hin as ([k' d'] & -> & Hin).
    apply elem_of_map_to_list in Hin. simpl in Hk. congruence.
  - intros [d Hk]. apply elem_of_map_to_list in Hk.
    destruct (Hnew k d Hk) as (src & Hsrc & _). by exists src.
Qed.

(** X15.  What a normal return of [from_bytes] tells, for any bytes, not
    only those of [to_bytes].  The bytes decoded to a map with a [config]
    and a [state] (other fields are ignored); the state was bytes, or [None],
    which is read as an empty stream; the tensor codec read from it, on the
    host when the backend's device type is ["cpu"] and on the current
    accelerator otherwise, a state that names exactly the tensors of the
    model's state.  The config of the shim is now the envelope's, the model
    is on the device resolved from the backend; its names and its mode, the
    optimizer, the identity of the shim and the buffers outside the model
    are untouched. *)
Theorem from_bytes_normal_return
    (msgpack_loads : list Byte.byte → outcome msgval)
    (torch_load : torch_device → list Byte.byte → outcome (gmap string data))
    (self : shim) (device_type : string) (current_device : nat)
    (bytes_data : list Byte.byte) (h : heap) (self' : shim) (h' : heap) :
  let map_location := if decide (device_type = "cpu") then Cpu else Cuda current_device in
  from_bytes msgpack_loads torch_load self device_type current_device bytes_data h
    = (self', h', Ok tt) →
  ∃ m c stream loaded,
    msgpack_loads bytes_data = Ok (MMap m) ∧
    m !! "config" = Some c ∧
    (m !! "state" = Some (MBin stream) ∨ (m !! "state" = Some MNil ∧ stream = [])) ∧
    torch_load map_location stream = Ok loaded ∧
    dom loaded = dom (named_parameters (_model self)) ∧
    cfg self' = c ∧
    device (_model self') = map_location ∧
    training (_model self') = training (_model self) ∧
    named_parameters (_model self') = named_parameters (_model self) ∧
    _optimizer self' = _optimizer self ∧
    shim_id self' = shim_id self ∧
    (∀ l, l ∈ dom h → l ∉ state_tensors (_model self) → h' !! l = h !! l).
Proof.
  intros map_location. unfold from_bytes. fold map_location.
  destruct (msgpack_loads bytes_data) as [msg|e0] eqn:Hloads; [|done].
  destruct msg as [| | | | | |m]; try done.
  cbn [getitem].
  destruct (m !! "config") as [c|] eqn:Hc; [|done].
  destruct (m !! "state") as [st|] eqn:Hs; [|done].
  cbn [mbind outcome_bind].
  assert (Hst : ∀ stream, BytesIO st = Ok stream →
            Some st = Some (MBin stream) ∨ (Some st = Some MNil ∧ stream = [])).
  { intros stream Hb. destruct st; try done; simpl in Hb; injection Hb as <-; auto. }
  destruct (BytesIO st) as [stream|e0]; [|done].
  specialize (Hst stream eq_refl).
  destruct (torch_load map_location stream) as [loaded|e0] eqn:Hload; [|done].
  destruct (alloc_items (map_to_list loaded) ∅ h) as [h1 sd] eqn:Ha.
  pose proof (alloc_items_dom _ _ _ _ Ha) as Hsd.
  destruct (alloc_items_spec _ _ _ _ _ Ha (NoDup_fst_map_to_list _)) as (Hold & _ & _).
  unfold load_state_dict. case_decide as Hdom; [|done].
  intros [= <- <-].
  exists m, c, stream, loaded. split_and!; try done.
  - by rewrite Hs.
  - by rewrite <- Hsd.
  - intros l Hl Hp. rewrite copy_params_frame by done. by apply Hold.
Qed.

(** An instance: bytes with the config ["v2"] and a state for ["w"] and
    ["b"], read on an accelerator backend. *)
Lemma from_bytes_normal_return_witness :
  ∃ self' h' loaded,
    from_bytes demo_loads demo_load demo_shim "gpu" 1 demo_other_bytes demo_heap
      = (self', h', Ok tt) ∧
    cfg self' = MStr "v2" ∧
    device (_model self') = Cuda 1 ∧
    demo_load (Cuda 1) (demo_save demo_other_values) = Ok loaded ∧
    dom loaded = dom (named_parameters demo_model) ∧
    h' !! 3%positive = Some [30%Z].
Proof.
  destruct (from_bytes demo_loads demo_load demo_shim "gpu" 1 demo_other_bytes demo_heap)
    as [[self' h'] r] eqn:Hrun.
  assert (Hr : r = Ok tt).
  { vm_compute in Hrun. by injection Hrun as _ _ <-. }
  subst r.
  destruct (from_bytes_normal_return _ _ _ _ _ _ _ _ _ Hrun)
    as (m & c & stream & loaded & Hloads & Hc & Hs & Hload & Hdom & Hcfg & Hdev & _ & _
        & _ & _ & Hh).
  assert (Hm : m = <["state" := MBin (demo_save demo_other_values)]>
                     (<["config" := MStr "v2"]> ∅)).
  { vm_compute in Hloads. injection Hloads as <-. by vm_compute. }
  subst m.
  assert (c = MStr "v2") as -> by (vm_compute in Hc; by injection Hc).
  assert (stream = demo_save demo_other_values) as ->.
  { destruct Hs as [Hs|[Hs _]]; vm_compute in Hs; [by injection Hs as <-|done]. }
  exists self', h', loaded. split_and!; try done.
  rewrite Hh; [done | |]; apply (bool_decide_unpack _); by vm_compute.
Defined.

(** ** [predict] and [__call__] *)

(** X16.  [predict] runs the forward pass with the model in evaluation mode
    and gradient tracking off, whatever mode the shim was in: its result
    does not depend on that mode.  When the forward pass returns, its output
    is returned as it is, the model is in training mode (not in the mode it
    had before) and the gradient mode is the one before the call; when the
    forward pass raises, the failure is passed on and the model stays in
    evaluation mode. *)
Theorem predict_modes
    (forward : bool → torch_model → ArgsKwargs → world → world * outcome pyval)
    (self : shim) (inputs : ArgsKwargs) (grad_enabled : bool) (w : world) :
  (∀ b, predict forward (set_model self (set_training (_model self) b)) inputs
          grad_enabled w
        = predict forward self inputs grad_enabled w) ∧
  (∀ w1 outputs,
     forward false (set_training (_model self) false) inputs w = (w1, Ok outputs) →
     predict forward self inputs grad_enabled w =
       (set_model self (set_training (_model self) true), grad_enabled, w1, Ok outputs)) ∧
  (∀ w1 e,
     forward false (set_training (_model self) false) inputs w = (w1, Raise e) →
     predict forward self inputs grad_enabled w =
       (set_model self (set_training (_model self) false), grad_enabled, w1, Raise e)).
Proof.
  split_and!.
  - done.
  - intros w1 outputs Hf. unfold predict. cbn [_model set_model]. by rewrite Hf.
  - intros w1 e Hf. unfold predict. cbn [_model set_model]. by rewrite Hf.
Qed.

Lemma predict_modes_witness :
  predict demo_forward (set_model demo_shim (set_training demo_model false))
    demo_inputs true demo_world
  = (demo_shim, true, demo_world, Ok (PTensor 1%positive)).
Proof.
  destruct (predict_modes demo_forward demo_shim demo_inputs true demo_world)
    as (Hmode & Hok & _).
  rewrite Hmode. apply Hok. reflexivity.
Defined.

(** X17.  A call that is not for training hands out a callback that does
    nothing: for every argument and in every world it returns the
    placeholder without raising and leaves the world as it is; the backward
    pass plays no part in such a call. *)
Theorem call_inference_callback
    (forward : bool → torch_model → ArgsKwargs → world → world * outcome pyval)
    (autograd_backward : ArgsKwargs → world → world * outcome unit)
    (self : shim) (inputs : ArgsKwargs) (grad_enabled : bool) (w : world)
    (self' : shim) (g' : bool) (w' : world) (output : pyval)
    (callback : ArgsKwargs → world → world * outcome callback_result) :
  __call__ forward autograd_backward self inputs false grad_enabled w
    = (self', g', w', Ok (output, callback)) →
  (∀ a w2, callback a w2 = (w2, Ok Ellipsis)) ∧
  predict forward self inputs grad_enabled w = (self', g', w', Ok output) ∧
  training (_model self') = true ∧
  ∀ other_backward,
    __call__ forward other_backward self inputs false grad_enabled w
      = (self', g', w', Ok (output, callback)).
Proof.
  intros Hcall. unfold __call__ in *.
  destruct (predict forward self inputs grad_enabled w) as [[[s g] w1] [out|e]] eqn:Hp;
    [|done].
  injection Hcall as <- <- <- <- <-. split_and!; try done.
  unfold predict in Hp.
  destruct (forward false _ inputs w) as [w2 [o|e]]; [|done].
  by injection Hp as <- _ _ _.
Qed.

Lemma call_inference_callback_witness :
  ∃ self' callback,
    __call__ demo_forward demo_backward demo_shim demo_inputs false true demo_world
      = (self', true, demo_world, Ok (PTensor 1%positive, callback)) ∧
    callback demo_inputs demo_world = (demo_world, Ok Ellipsis) ∧
    training (_model self') = true.
Proof.
  exists (set_model demo_shim (set_training demo_model true)),
         (λ a w, (w, Ok Ellipsis)).
  split; [reflexivity|].
  destruct (call_inference_callback demo_forward demo_backward demo_shim demo_inputs
              true demo_world
              (set_model demo_shim (set_training demo_model true)) true demo_world
              (PTensor 1%positive) (λ a w, (w, Ok Ellipsis)) eq_refl)
    as (Hcb & _ & Ht & _).
  split; [exact (Hcb demo_inputs demo_world) | exact Ht].
Defined.
